(** * Mel-frequency cepstral analysis ([phd/mfcc.py]): a shallow embedding

    The module frames a sampled signal, takes a power spectrum per frame,
    projects it on a triangular Mel filterbank and decorrelates the log
    energies with a cosine transform.  The embedding follows the Python
    source function by function.

    Conventions of the model.
    - Python integers are [Z]; array lengths are [nat] where NumPy needs a
      length and [Z] where the source computes with them.
    - Samples, weights and energies are binary64 numbers in the source.  They
      are modelled by exact rationals [Q]: every sum, product and quotient
      below is the exact value that the float operation rounds, and none of
      them overflows.  Where NumPy would carry on with [inf] or [nan] (a
      division by zero of arrays) the model stops with [NonFinite].  Two
      places are closer to binary64: the products that size the frames are
      rounded as binary64 rounds them ([b64_mul]), and the module
      [Binary64] has the operations behind the filterbank energies on
      floats, overflow included.
    - One-dimensional arrays are lists, two-dimensional arrays are lists of
      rows.  An array without rows is taken to have no columns.
    - Exceptions are values of [exn]; a function that can raise returns a
      [result].
    - The scalar functions of libm that NumPy and SciPy call (log, sqrt, cos,
      sin, ...) are the fields of the class [Libm]; nothing is assumed about
      their values. *)

From Stdlib Require Import ZArith QArith Qround Qabs List Lia Lqa Bool FinFun.
From Stdlib Require Import PrimFloat SpecFloat FloatOps.
Import ListNotations.
Open Scope Z_scope.

(** ** Exceptions and the error monad *)

Inductive exn : Type :=
| AssertionError
| IndexError
| ValueError
| ZeroDivisionError
| NonFinite.

Inductive result (A : Type) : Type :=
| Ok (a : A)
| Raise (e : exn).

Arguments Ok {A} a.
Arguments Raise {A} e.

Definition bind {A B : Type} (c : result A) (k : A -> result B) : result B :=
  match c with
  | Ok a => k a
  | Raise e => Raise e
  end.

Declare Scope py_scope.
Delimit Scope py_scope with py.
Notation "x <- c ;; k" := (bind c (fun x => k))
  (at level 61, c at next level, right associativity) : py_scope.
Notation "' pat <- c ;; k" := (bind c (fun x => match x with pat => k end))
  (at level 61, pat pattern, c at next level, right associativity) : py_scope.
Open Scope py_scope.

Definition is_ok {A : Type} (c : result A) : bool :=
  match c with Ok _ => true | Raise _ => false end.

(** [assert cond] *)
Definition py_assert (cond : bool) : result unit :=
  if cond then Ok tt else Raise AssertionError.

(** [[f(x) for x in l]], stopping at the first exception. *)
Fixpoint mapM {A B : Type} (f : A -> result B) (l : list A) : result (list B) :=
  match l with
  | [] => Ok []
  | x :: l' => y <- f x ;; ys <- mapM f l' ;; Ok (y :: ys)
  end.

(** [for x in l: acc = body(x, acc)], stopping at the first exception. *)
Fixpoint foldM {A S : Type} (body : A -> S -> result S) (l : list A) (acc : S)
  : result S :=
  match l with
  | [] => Ok acc
  | x :: l' => acc' <- body x acc ;; foldM body l' acc'
  end.

(** ** Python built-ins *)

(** [round(x)]: to the nearest integer, a tie away from zero (the source is
    Python 2: it sizes an array with [n_fft/2+1]).  The general
    statements below do not depend on how a tie is broken. *)
Definition py_round (x : Q) : Z :=
  if Qle_bool 0 x then Qfloor (x + (1 # 2)) else Qceiling (x - (1 # 2)).

(** Round to the nearest integer, a tie to the even one. *)
Definition round_half_even (x : Q) : Z :=
  let f := Qfloor x in
  match (x - inject_Z f ?= 1 # 2)%Q with
  | Lt => f
  | Gt => f + 1
  | Eq => if Z.even f then f else f + 1
  end.

(** The exponent [e] of a positive rational, [2^e <= x < 2^(e+1)]. *)
Definition Qlog2 (x : Q) : Z :=
  let e := Z.log2 (Qnum x) - Z.log2 (Zpos (Qden x)) in
  if Qle_bool (2 ^ e) x then e else e - 1.

(** The binary64 number nearest to [x], a tie to the even significand:
    53 significant bits, on the grid of [2^-1074] for the smallest
    numbers.  A value beyond the binary64 range is rounded to 53 bits like
    any other; as a frame length it would ask for more than 1e308 samples,
    and the model puts no bound on the size of an array. *)
Definition b64_round (x : Q) : Q :=
  if Qeq_bool x 0 then 0%Q
  else
    let ulp := (2 ^ Z.max (Qlog2 (Qabs x) - 52) (-1074))%Q in
    (inject_Z (round_half_even (x / ulp)) * ulp)%Q.

(** [a * b] on two floats: the one product of the module whose rounding
    decides an integer, the length and the step of the frames. *)
Definition b64_mul (a b : Q) : Q := b64_round (a * b).

(** A number that Python passes for a parameter documented as a float:
    an [int] or a [float].  The two differ under [/], which floors the
    quotient of two integers (the source is Python 2). *)
Inductive pynum : Type :=
| PyInt (z : Z)
| PyFloat (x : Q).

Definition py_value (a : pynum) : Q :=
  match a with PyInt z => inject_Z z | PyFloat x => x end.

(** [a / 2] *)
Definition py_half (a : pynum) : Q :=
  match a with PyInt z => inject_Z (z / 2) | PyFloat x => (x / 2)%Q end.

(** [range(a, b)] *)
Definition py_range (a b : Z) : list Z :=
  map (fun k => a + Z.of_nat k) (seq 0 (Z.to_nat (b - a))).

(** The position that index [i] denotes in a sequence of [n] items:
    negative indices count from the end, anything else out of
    [-n, n) raises [IndexError]. *)
Definition py_index (n : nat) (i : Z) : result nat :=
  if (0 <=? i) && (i <? Z.of_nat n) then Ok (Z.to_nat i)
  else if (- Z.of_nat n <=? i) && (i <? 0) then Ok (Z.to_nat (i + Z.of_nat n))
  else Raise IndexError.

(** [a[i]] *)
Definition getitem {A : Type} (a : list A) (i : Z) : result A :=
  k <- py_index (length a) i ;;
  match nth_error a k with
  | Some x => Ok x
  | None => Raise IndexError
  end.

(** The list [a] with position [k] replaced by [v]. *)
Fixpoint list_set {A : Type} (a : list A) (k : nat) (v : A) : list A :=
  match a, k with
  | [], _ => []
  | _ :: a', O => v :: a'
  | x :: a', S k' => x :: list_set a' k' v
  end.

(** [a[i] = v] *)
Definition setitem {A : Type} (a : list A) (i : Z) (v : A) : result (list A) :=
  k <- py_index (length a) i ;;
  Ok (list_set a k v).

(** [a[:n]] *)
Definition py_slice_to {A : Type} (a : list A) (n : Z) : list A :=
  if 0 <=? n then firstn (Z.to_nat n) a
  else firstn (Z.to_nat (Z.of_nat (length a) + n)) a.

(** [a[1:]] and [a[:-1]] are [tl a] and [removelast a]. *)

(** ** NumPy primitives *)

Abbreviation vec := (list Q).
Abbreviation mat := (list (list Q)).

(** [a.shape[1]] *)
Definition shape1 {A : Type} (a : list (list A)) : Z :=
  match a with
  | [] => 0
  | r :: _ => Z.of_nat (length r)
  end.

(** [np.zeros(n)] *)
Definition np_zeros (n : Z) : result vec :=
  if n <? 0 then Raise ValueError else Ok (repeat 0%Q (Z.to_nat n)).

(** [np.ones(n)] *)
Definition np_ones (n : Z) : result vec :=
  if n <? 0 then Raise ValueError else Ok (repeat 1%Q (Z.to_nat n)).

(** [np.arange(n)] *)
Definition np_arange (n : Z) : list Z := py_range 0 n.

(** [np.arange(0, stop, step)] *)
Definition np_arange_step (stop step : Z) : result (list Z) :=
  if step =? 0 then Raise ZeroDivisionError
  else Ok (map (fun k => k * step) (np_arange (- ((- stop) / step)))).

(** [np.tile(row, (reps, 1))] *)
Definition np_tile {A : Type} (row : list A) (reps : Z) : result (list (list A)) :=
  if reps <? 0 then Raise ValueError else Ok (repeat row (Z.to_nat reps)).

(** [np.tile(col, (reps, 1)).T] *)
Definition np_tile_T {A : Type} (col : list A) (reps : Z) : result (list (list A)) :=
  if reps <? 0 then Raise ValueError
  else Ok (map (fun x => repeat x (Z.to_nat reps)) col).

(** [x.astype(np.int32)] on one integer: two's complement on 32 bits. *)
Definition astype_int32 (z : Z) : Z := (z + 2 ^ 31) mod 2 ^ 32 - 2 ^ 31.

Fixpoint map2 {A B C : Type} (f : A -> B -> C) (l1 : list A) (l2 : list B) : list C :=
  match l1, l2 with
  | x :: l1', y :: l2' => f x y :: map2 f l1' l2'
  | _, _ => []
  end.

(** Broadcasting of a binary operation along one axis: equal lengths go
    element by element, a length-one operand is stretched, anything else is
    a shape error. *)
Definition broadcast {A B : Type} (op : A -> A -> B) (u v : list A) : result (list B) :=
  if Nat.eqb (length u) (length v) then Ok (map2 op u v)
  else match u, v with
       | [x], _ => Ok (map (op x) v)
       | _, [y] => Ok (map (fun x => op x y) u)
       | _, _ => Raise ValueError
       end.

(** The same for two-dimensional arrays, first along the rows. *)
Definition broadcast2 {A B : Type} (op : A -> A -> B) (a b : list (list A))
  : result (list (list B)) :=
  if Nat.eqb (length a) (length b)
  then mapM (fun p => broadcast op (fst p) (snd p)) (combine a b)
  else match a, b with
       | [r], _ => mapM (fun rb => broadcast op r rb) b
       | _, [r] => mapM (fun ra => broadcast op ra r) a
       | _, _ => Raise ValueError
       end.

(** [a[idx]] for an integer index array [idx] *)
Definition take (a : vec) (idx : list Z) : result vec := mapM (getitem a) idx.

Definition take2 (a : vec) (idx : list (list Z)) : result mat := mapM (take a) idx.

(** [a[idx] += v]: NumPy reads [a[idx]], adds [v] (broadcast) and then
    stores the sums back one index after the other. *)
Definition iadd_at (a : vec) (idx : list Z) (v : vec) : result vec :=
  old <- take a idx ;;
  new <- broadcast Qplus old v ;;
  if Nat.eqb (length new) (length idx)
  then foldM (fun p acc => setitem acc (fst p) (snd p)) (combine idx new) a
  else Raise ValueError.

(** [a / b] on arrays.  NumPy does not raise on a zero divisor, it stores
    [inf] or [nan]; the model has no such entries and stops with
    [NonFinite]. *)
Definition np_divide (a b : vec) : result vec :=
  q <- broadcast (fun x y => (x, y)) a b ;;
  mapM (fun p => if Qeq_bool (snd p) 0 then Raise NonFinite
                 else Ok (fst p / snd p)%Q) q.

(** ** Framing ([framesig], [deframesig]) *)

(** The index array shared by [framesig] and [deframesig]:
    [np.tile(np.arange(frame_len), (numframes, 1))
     + np.tile(np.arange(0, numframes * frame_step, frame_step),
               (frame_len, 1)).T.astype(dtype=np.int32)] *)
Definition frame_indices (frame_len frame_step numframes : Z)
  : result (list (list Z)) :=
  base <- np_tile (np_arange frame_len) numframes ;;
  offs <- np_arange_step (numframes * frame_step) frame_step ;;
  offsT <- np_tile_T offs frame_len ;;
  broadcast2 Z.add base (map (map astype_int32) offsT).

(** [numframes] of [framesig], from the rounded geometry.  The float quotient
    [(1.0 * slen - frame_len) / frame_step] has the ceiling of the exact
    quotient for every length below 2^53. *)
Definition framesig_numframes (slen frame_len frame_step : Z) : result Z :=
  if slen <=? frame_len then Ok 1
  else if frame_step =? 0 then Raise ZeroDivisionError
  else Ok (1 + Qceiling (inject_Z (slen - frame_len) / inject_Z frame_step)).

Definition framesig (sig : vec) (frame_len frame_step : Q)
  (winfunc : Z -> result vec) : result mat :=
  let slen := Z.of_nat (length sig) in
  let frame_len := py_round frame_len in
  let frame_step := py_round frame_step in
  numframes <- framesig_numframes slen frame_len frame_step ;;
  let padlen := (numframes - 1) * frame_step + frame_len in
  zeros <- np_zeros (padlen - slen) ;;
  let padsignal := sig ++ zeros in
  indices <- frame_indices frame_len frame_step numframes ;;
  frames <- take2 padsignal indices ;;
  w <- winfunc frame_len ;;
  win <- np_tile w numframes ;;
  broadcast2 Qmult frames win.

(** The bias that [deframesig] adds to every window weight, [1e-15]. *)
Definition window_bias : Q := 1 # 1000000000000000.

(** [win + 1e-15] and the sums of the loop are exact here; binary64 rounds
    them, [1 + 1e-15] to [1 + 5 * 2^-52] for one.
    The division [rec_signal /= window_correction] goes entry by entry, and
    [rec_signal[:siglen]] then cuts off whatever lies past [siglen], an
    [inf] or [nan] included.  The model divides the entries that are
    returned: it stops with [NonFinite] exactly when the returned array
    would hold an [inf] or a [nan]. *)

Definition deframesig (frames : mat) (frame_len frame_step : Q)
  (siglen : option Z) (winfunc : Z -> result vec) : result vec :=
  let frame_len := py_round frame_len in
  let frame_step := py_round frame_step in
  let numframes := Z.of_nat (length frames) in
  _ <- py_assert (shape1 frames =? frame_len) ;;
  indices <- frame_indices frame_len frame_step numframes ;;
  let padlen := (numframes - 1) * frame_step + frame_len in
  let siglen := match siglen with None => padlen | Some n => n end in
  rec_signal <- np_zeros padlen ;;
  window_correction <- np_zeros padlen ;;
  win <- winfunc frame_len ;;
  biased <- broadcast Qplus win [window_bias] ;;
  st <- foldM (fun i st =>
                 idx <- getitem indices i ;;
                 wc <- iadd_at (fst st) idx biased ;;
                 row <- getitem frames i ;;
                 rs <- iadd_at (snd st) idx row ;;
                 Ok (wc, rs))
              (py_range 0 numframes) (window_correction, rec_signal) ;;
  np_divide (py_slice_to (snd st) siglen) (py_slice_to (fst st) siglen).

Definition rect_window : Z -> result vec := np_ones.


(** ** External scalar functions *)

(** What the source takes from libm through NumPy and SciPy. *)
Class Libm : Type := {
  m_log : Q -> Q;       (* natural logarithm *)
  m_log10 : Q -> Q;     (* decimal logarithm *)
  m_pow10 : Q -> Q;     (* 10 ** x *)
  m_sqrt : Q -> Q;
  m_cos : Q -> Q;
  m_sin : Q -> Q;
  m_pi : Q
}.

(** What the source imports from [phd/utils.py]. *)
Class Utils : Type := {
  (** Modelled from the spec: [derivative(x, spread)] of [phd/utils.py],
      a numeric derivative of a feature matrix along the frames. *)
  derivative : mat -> Z -> mat
}.

(** [np.finfo(float).eps] *)
Definition float_eps : Q := 1 # (2 ^ 52).

Definition Qsum (l : list Q) : Q := fold_right Qplus 0%Q l.

Section Pipeline.
Context {libm : Libm} {utils : Utils}.

(** Modelled from the spec: [hz2mel] of [phd/utils.py],
    [2595 * log10(1 + f / 700)]. *)
Definition hz2mel (hz : Q) : Q := (2595 * m_log10 (1 + hz / 700))%Q.

(** Modelled from the spec: [mel2hz] of [phd/utils.py], the inverse
    exponential map [700 * (10 ** (m / 2595) - 1)]. *)
Definition mel2hz (mel : Q) : Q := (700 * (m_pow10 (mel / 2595) - 1))%Q.

(** *** Pre-emphasis *)

Definition preemphasis (signal : vec) (coeff : Q) : result vec :=
  first <- getitem signal 0 ;;
  rest <- broadcast Qminus (tl signal) (map (Qmult coeff) (removelast signal)) ;;
  Ok (first :: rest).

(** *** Spectra *)

(** [x] cut or zero-padded to [n] samples, as [np.fft.rfft(x, n)] does. *)
Definition fit_length (x : vec) (n : nat) : vec :=
  firstn n x ++ repeat 0%Q (n - length x).

(** Bin [k] of the discrete Fourier transform of the [n] samples [x]:
    real and imaginary part of [sum_t x[t] * exp(-2 pi i k t / n)]. *)
Definition dft_bin (x : vec) (n k : Z) : Q * Q :=
  let angle t := (2 * m_pi * inject_Z (k * t) / inject_Z n)%Q in
  (Qsum (map (fun p => (snd p * m_cos (angle (fst p)))%Q) (combine (np_arange n) x)),
   Qsum (map (fun p => (- (snd p * m_sin (angle (fst p))))%Q) (combine (np_arange n) x))).

(** [np.fft.rfft(frames, n)]: the bins [0 .. n/2] of every row. *)
Definition np_fft_rfft (frames : mat) (n : Z) : result (list (list (Q * Q))) :=
  if n <? 1 then Raise ValueError
  else Ok (map (fun x => map (dft_bin (fit_length x (Z.to_nat n)) n)
                             (np_arange (n / 2 + 1))) frames).

(** [np.absolute] of a complex number *)
Definition np_absolute (z : Q * Q) : Q :=
  m_sqrt (fst z * fst z + snd z * snd z)%Q.

(** [np.square], exact: the overflow of binary64 from about 1.3e154 on is
    in [Binary64.np_square]. *)
Definition np_square (x : Q) : Q := (x * x)%Q.

Definition magspec (frames : mat) (N_FFT : Z) : result mat :=
  complex_spec <- np_fft_rfft frames N_FFT ;;
  Ok (map (map np_absolute) complex_spec).

Definition powspec (frames : mat) (N_FFT : Z) : result mat :=
  scale <- (if N_FFT =? 0 then Raise ZeroDivisionError
            else Ok (1 / inject_Z N_FFT)%Q) ;;
  mag <- magspec frames N_FFT ;;
  Ok (map (map (fun m => (scale * np_square m)%Q)) mag).

(** *** The Mel filterbank *)

(** [fs // 2] *)
Definition half_rate (fs : Q) : Q := inject_Z (Qfloor (fs / 2)).

(** [np.linspace(a, b, num)] *)
Definition np_linspace (a b : Q) (num : Z) : result vec :=
  if num <? 0 then Raise ValueError
  else if num =? 1 then Ok [a]
  else Ok (map (fun i => (inject_Z i * ((b - a) / inject_Z (num - 1)) + a)%Q)
               (np_arange num)).

(** [np.floor((n_fft + 1) * mel2hz(melpoints) / fs)], as integers. *)
Definition fft_bins (n_fft : Z) (fs : Q) (melpoints : vec) : result (list Z) :=
  mapM (fun m => if Qeq_bool fs 0 then Raise NonFinite
                 else Ok (Qfloor (inject_Z (n_fft + 1) * mel2hz m / fs))) melpoints.

(** [fbank[j, i] = v] *)
Definition setitem2 (a : mat) (j i : Z) (v : Q) : result mat :=
  row <- getitem a j ;;
  row' <- setitem row i v ;;
  setitem a j row'.

(** The two inner loops of [get_filterbanks] for filter [j]. *)
Definition fill_filter (fbin : list Z) (j : Z) (fbank : mat) : result mat :=
  b0 <- getitem fbin j ;;
  b1 <- getitem fbin (j + 1) ;;
  fbank <- foldM (fun i fbank =>
                    setitem2 fbank j i (inject_Z (i - b0) / inject_Z (b1 - b0))%Q)
                 (py_range b0 b1) fbank ;;
  b2 <- getitem fbin (j + 2) ;;
  foldM (fun i fbank =>
           setitem2 fbank j i (inject_Z (b2 - i) / inject_Z (b2 - b1))%Q)
        (py_range b1 b2) fbank.

(** [np.zeros([rows, cols])] *)
Definition np_zeros2 (rows cols : Z) : result mat :=
  if (rows <? 0) || (cols <? 0) then Raise ValueError
  else Ok (repeat (repeat 0%Q (Z.to_nat cols)) (Z.to_nat rows)).

(** The control bins [fbin] of [get_filterbanks]: [n_filters + 2] points
    evenly spaced in mels, brought back to Hz and then to FFT bins. *)
Definition control_bins (n_filters n_fft : Z) (fs minfreq maxfreq : Q)
  : result (list Z) :=
  let lowmel := hz2mel minfreq in
  let highmel := hz2mel maxfreq in
  melpoints <- np_linspace lowmel highmel (n_filters + 2) ;;
  fft_bins n_fft fs melpoints.

Definition get_filterbanks (n_filters n_fft : Z) (fs minfreq : Q)
  (maxfreq : option Q) : result mat :=
  let maxfreq := match maxfreq with None => half_rate fs | Some f => f end in
  _ <- py_assert (Qle_bool maxfreq (half_rate fs)) ;;
  fbin <- control_bins n_filters n_fft fs minfreq maxfreq ;;
  fbank <- np_zeros2 n_filters (n_fft / 2 + 1) ;;
  foldM (fill_filter fbin) (py_range 0 n_filters) fbank.

(** *** Filterbank energies *)

(** [x[x == 0] = np.finfo(float).eps] on one entry *)
Definition floor_eps (x : Q) : Q := if Qeq_bool x 0 then float_eps else x.

(** [np.dot(a, b.T)] *)
Definition np_dot_T (a b : mat) : result mat :=
  mapM (fun r =>
          mapM (fun f => if Nat.eqb (length r) (length f)
                         then Ok (Qsum (map2 Qmult r f))
                         else Raise ValueError) b) a.

Definition fbank (audio : vec) (fs window_dt dt : Q) (n_filters n_fft : Z)
  (minfreq : Q) (maxfreq : option Q) (preemph : Q) : result (mat * vec) :=
  let maxfreq := match maxfreq with None => half_rate fs | Some f => f end in
  audio <- preemphasis audio preemph ;;
  frames <- framesig audio (b64_mul window_dt fs) (b64_mul dt fs) rect_window ;;
  pspec <- powspec frames n_fft ;;
  let energy := map Qsum pspec in
  let energy := map floor_eps energy in
  fb <- get_filterbanks n_filters n_fft fs minfreq (Some maxfreq) ;;
  feat <- np_dot_T pspec fb ;;
  let feat := map (map floor_eps) feat in
  Ok (feat, energy).

Definition logfbank (audio : vec) (fs window_dt dt : Q) (n_filters n_fft : Z)
  (minfreq : Q) (maxfreq : option Q) (preemph : Q) : result mat :=
  fe <- fbank audio fs window_dt dt n_filters n_fft minfreq maxfreq preemph ;;
  Ok (map (map m_log) (fst fe)).

(** *** Cepstra *)

(** [scipy.fftpack.dct(x, type=2, norm='ortho')] of one row of [N > 0]
    numbers: [y[k] = f(k) * 2 * sum_n x[n] * cos(pi * k * (2n + 1) / (2N))]
    with [f(0) = sqrt(1 / (4N))] and [f(k) = sqrt(1 / (2N))] otherwise. *)
Definition dct_coefficients (x : vec) : vec :=
  let N := Z.of_nat (length x) in
  map (fun k =>
         let f := if k =? 0 then m_sqrt (1 / inject_Z (4 * N))
                  else m_sqrt (1 / inject_Z (2 * N)) in
         (f * (2 * Qsum (map (fun p =>
              snd p * m_cos (m_pi * inject_Z (k * (2 * fst p + 1))
                             / inject_Z (2 * N)))
              (combine (np_arange N) x))))%Q)
      (np_arange N).

Definition dct_row (x : vec) : result vec :=
  if Z.of_nat (length x) =? 0 then Raise ValueError else Ok (dct_coefficients x).

(** [L / 2] is the floor division of Python 2 when [L] is an [int], as the
    default 22 is; [np.pi * n / L] divides a float array. *)
Definition lifter (cepstra : mat) (L : pynum) : result mat :=
  if Qle_bool (py_value L) 0 then Ok cepstra
  else
    let ncoeff := shape1 cepstra in
    let n := np_arange ncoeff in
    let lift := map (fun n => (1 + py_half L
                                   * m_sin (m_pi * inject_Z n / py_value L))%Q) n in
    mapM (fun row => broadcast Qmult lift row) cepstra.

(** [feat[:, 0] = col] *)
Definition set_column0 (feat : mat) (col : vec) : result mat :=
  if Nat.eqb (length feat) (length col)
  then mapM (fun p => setitem (fst p) 0 (snd p)) (combine feat col)
  else Raise ValueError.

(** The list [derivs] after [n] turns of the loop of [mfcc]. *)
Fixpoint derivs_from (target : mat) (deriv_spread : Z) (n : nat) : list mat :=
  match n with
  | O => []
  | S n' => let d := derivative target deriv_spread in
            d :: derivs_from d deriv_spread n'
  end.

(** [np.hstack(blocks)] of two-dimensional arrays *)
Fixpoint np_hstack (blocks : list mat) : result mat :=
  match blocks with
  | [] => Raise ValueError
  | [b] => Ok b
  | b :: bs =>
      rest <- np_hstack bs ;;
      if Nat.eqb (length b) (length rest) then Ok (map2 (@app Q) b rest)
      else Raise ValueError
  end.

Definition mfcc (audio : vec) (fs window_dt dt : Q) (n_cepstra n_filters n_fft : Z)
  (minfreq : Q) (maxfreq : option Q) (preemph : Q) (lift : pynum) (energy : bool)
  (n_derivatives deriv_spread : Z) : result mat :=
  fe <- fbank audio fs window_dt dt n_filters n_fft minfreq maxfreq preemph ;;
  let energy_ := snd fe in
  let feat := map (map m_log) (fst fe) in
  feat <- mapM dct_row feat ;;
  let feat := map (fun row => py_slice_to row n_cepstra) feat in
  feat <- lifter feat lift ;;
  feat <- (if energy then set_column0 feat (map m_log energy_) else Ok feat) ;;
  let derivs := derivs_from feat deriv_spread (Z.to_nat n_derivatives) in
  np_hstack (feat :: derivs).

End Pipeline.

(** ** The other features of the module ([logpowspec], [ssc]) *)

(** [np.max(a)] of a two-dimensional array; it has no value on an array
    without entries. *)
Definition np_max (a : mat) : result Q :=
  match concat a with
  | [] => Raise ValueError
  | x :: l => Ok (fold_left (fun m y => if Qle_bool m y then y else m) l x)
  end.

(** [a / b] on two-dimensional arrays. *)
Definition np_divide2 (a b : mat) : result mat :=
  q <- broadcast2 (fun x y => (x, y)) a b ;;
  mapM (mapM (fun p : Q * Q => if Qeq_bool (snd p) 0 then Raise NonFinite
                               else Ok (fst p / snd p)%Q)) q.

(** The floor of [logpowspec], [1e-30]. *)
Definition power_floor : Q := 1 # (10 ^ 30).

(** [ps[ps <= 1e-30] = 1e-30] on one entry *)
Definition floor_power (x : Q) : Q :=
  if Qle_bool x power_floor then power_floor else x.

Section MoreFeatures.
Context {libm : Libm}.

Definition logpowspec (frames : mat) (N_FFT : Z) (norm : bool) : result mat :=
  ps <- powspec frames N_FFT ;;
  let ps := map (map floor_power) ps in
  let lps := map (map (fun p => (10 * m_log10 p)%Q)) ps in
  if norm then top <- np_max lps ;; Ok (map (map (fun x => (x - top)%Q)) lps)
  else Ok lps.

Definition ssc (audio : vec) (fs window_dt dt : Q) (n_filters n_fft : Z)
  (minfreq : Q) (maxfreq : option Q) (preemph : Q) : result mat :=
  let maxfreq := match maxfreq with None => half_rate fs | Some f => f end in
  audio <- preemphasis audio preemph ;;
  frames <- framesig audio (b64_mul window_dt fs) (b64_mul dt fs) rect_window ;;
  pspec <- powspec frames n_fft ;;
  let pspec := map (map floor_eps) pspec in
  fb <- get_filterbanks n_filters n_fft fs minfreq (Some maxfreq) ;;
  feat <- np_dot_T pspec fb ;;
  ramp <- np_linspace 1 (half_rate fs) (shape1 pspec) ;;
  R <- np_tile ramp (Z.of_nat (length pspec)) ;;
  weighted <- broadcast2 Qmult pspec R ;;
  num <- np_dot_T weighted fb ;;
  np_divide2 num feat.

End MoreFeatures.

(** A rational stand-in for libm and a first difference for [derivative],
    to run the pipeline on concrete inputs. *)
Definition toy_libm : Libm := {|
  m_log := fun x => (x - 1)%Q;
  m_log10 := fun x => (x - 1)%Q;
  m_pow10 := fun x => (1 + x)%Q;
  m_sqrt := fun x => x;
  m_cos := fun x => (1 - x * x / 2)%Q;
  m_sin := fun x => x;
  m_pi := 22 # 7
|}.

Definition toy_utils : Utils := {|
  derivative := fun x _ => map2 (map2 Qminus) (tl x ++ [last x []]) x
|}.

(** ** The binary64 operations behind the filterbank energies

    An exact rational cannot overflow and is never rounded.  The steps of
    the source in which binary64 does either and a statement below depends
    on it are embedded here once more, on the primitive floats of Rocq,
    which are the binary64 numbers of IEEE 754 with their [inf] and
    [nan]. *)
Module Binary64.



(** [np.square] *)
Definition np_square (x : float) : float := (x * x)%float.


(** [np.dot(a, b.T)], every entry summed from the left.  A sum with a
    [nan] among its terms is [nan] in whatever order it is taken. *)
Definition np_dot_T (a b : list (list float)) : list (list float) :=
  map (fun r => map (fun f => fold_left PrimFloat.add (map2 PrimFloat.mul r f)
                                        0%float) b) a.

(** [x[x == 0] = np.finfo(float).eps] on one entry *)
Definition floor_eps (x : float) : float :=
  if (x =? 0)%float then 0x1p-52%float else x.


(** The literal [1e-15] of [deframesig]. *)
Definition window_bias : float := 0x1.203af9ee75616p-50%float.

(** What [deframesig] computes at a sample that lies in one frame only:
    the window weight with its bias and the entry of the frame are each
    added to a zero, and the sums divided. *)
Definition overlap_quotient (entry weight : float) : float :=
  ((0 + entry) / (0 + (weight + window_bias)))%float.

End Binary64.

(** ** Auxiliary definitions of the statements *)

(** The position of a valid index, and what [a[i]] reads there. *)
Definition position (n : nat) (i : Z) : nat :=
  if i <? 0 then Z.to_nat (i + Z.of_nat n) else Z.to_nat i.

(** The index array of a valid geometry. *)
Definition index_rows (frame_len frame_step numframes : Z) : list (list Z) :=
  map (fun i => map (fun j => j + astype_int32 (i * frame_step)) (np_arange frame_len))
      (np_arange numframes).

(** The frames that [framesig] cuts out of the padded signal [pad] and
    weights with the window [w]. *)
Definition frames_of (pad w : vec) (fl fs n : Z) : mat :=
  map (fun row => map2 Qmult (map (fun z => nth (position (length pad) z) pad 0%Q) row) w)
      (index_rows fl fs n).









(** The weight that a filter with control bins [b0], [b1], [b2] gives to
    bin [i]. *)
Definition triangle (b0 b1 b2 i : Z) : Q :=
  if (b0 <=? i) && (i <? b1) then (inject_Z (i - b0) / inject_Z (b1 - b0))%Q
  else if (b1 <=? i) && (i <? b2) then (inject_Z (b2 - i) / inject_Z (b2 - b1))%Q
  else 0%Q.

(** Row [j] of the filterbank over [ncols] bins. *)
Definition filter_row (fbin : list Z) (ncols j : Z) : vec :=
  map (triangle (nth (Z.to_nat j) fbin 0) (nth (Z.to_nat (j + 1)) fbin 0)
                (nth (Z.to_nat (j + 2)) fbin 0))
      (np_arange ncols).

(** The width of the rows of a matrix. *)
Definition has_width {A : Type} (w : Z) (a : list (list A)) : Prop :=
  Forall (fun row => Z.of_nat (length row) = w) a.

(** A derivative that returns a matrix of the shape of its argument. *)
Definition shape_preserving (utils : Utils) : Prop :=
  forall (x : mat) (spread w : Z),
    1 <= spread ->
    length (derivative x spread) = length x /\
    (has_width w x -> has_width w (derivative x spread)).

(** The arguments on which [fbank] runs through: a signal with a first
    sample, a frame length and a frame step that round to at least one
    sample, an FFT of at least one point, a band that ends at or below half
    the sample rate, and control bins on the bin axis. *)
Definition valid_config {libm : Libm} (audio : vec) (fs window_dt dt : Q)
  (n_filters n_fft : Z) (minfreq : Q) (maxfreq : option Q) : Prop :=
  let top := match maxfreq with None => half_rate fs | Some f => f end in
  audio <> [] /\
  1 <= py_round (b64_mul window_dt fs) /\
  1 <= py_round (b64_mul dt fs) /\
  1 <= n_fft /\
  0 <= n_filters /\
  (top <= half_rate fs)%Q /\
  exists fbin,
    control_bins n_filters n_fft fs minfreq top = Ok fbin /\
    Forall (fun b => 0 <= b <= n_fft / 2 + 1) fbin.

(** Row [x] of the power spectrum on [n] points. *)
Definition power_row {libm : Libm} (n : Z) (x : vec) : vec :=
  map (fun k => (1 / inject_Z n
                 * np_square (np_absolute (dft_bin (fit_length x (Z.to_nat n)) n k)))%Q)
      (np_arange (n / 2 + 1)).

(** The number of columns that [[:, :n_cepstra]] keeps of [n_filters]. *)
Definition cepstra_width (n_cepstra n_filters : Z) : Z :=
  if 0 <=? n_cepstra then Z.min n_cepstra n_filters
  else Z.max 0 (n_filters + n_cepstra).

(** The filterbank energies and the frame energies that [fbank] returns for
    the power spectrum [pspec] and the filterbank [fb]. *)
Definition energies_of (pspec fb : mat) : mat * vec :=
  (map (map floor_eps) (map (fun r => map (fun f => Qsum (map2 Qmult r f)) fb) pspec),
   map floor_eps (map Qsum pspec)).

(** Tactics that check [valid_config] on concrete arguments by evaluation. *)
Ltac bins_in_range :=
  repeat first [apply Forall_nil | apply Forall_cons; [cbv; split; discriminate|]].

Ltac valid_config_by_computation :=
  unfold valid_config;
  repeat (split; [first [discriminate | vm_compute; discriminate]|]);
  eexists; split; [vm_compute; reflexivity | bins_in_range].

(** * Properties *)

(** ** The error monad and the list primitives *)

Lemma bind_ok_inv {A B : Type} (c : result A) (k : A -> result B) (b : B) :
  bind c k = Ok b -> exists a, c = Ok a /\ k a = Ok b.
Proof.
  destruct c as [a|e]; simpl; intros H; [eauto | discriminate].
Qed.

Lemma mapM_ok_map {A B : Type} (f : A -> result B) (g : A -> B) (l : list A) :
  (forall x, In x l -> f x = Ok (g x)) -> mapM f l = Ok (map g l).
Proof.
  induction l as [|x l IH]; intros H; simpl; [reflexivity|].
  rewrite (H x (or_introl eq_refl)); simpl.
  rewrite IH by (intros y Hy; apply H; now right).
  reflexivity.
Qed.

Lemma mapM_Forall2 {A B : Type} (f : A -> result B) (l : list A) (r : list B) :
  mapM f l = Ok r -> Forall2 (fun x y => f x = Ok y) l r.
Proof.
  revert r; induction l as [|x l IH]; simpl; intros r H.
  - injection H as <-. constructor.
  - apply bind_ok_inv in H as (y & Hy & H).
    apply bind_ok_inv in H as (ys & Hys & H).
    injection H as <-. constructor; auto.
Qed.

Lemma mapM_length {A B : Type} (f : A -> result B) (l : list A) (r : list B) :
  mapM f l = Ok r -> length r = length l.
Proof.
  intros H. apply mapM_Forall2 in H. symmetry. eapply Forall2_length; eauto.
Qed.

Lemma map2_length {A B C : Type} (f : A -> B -> C) (u : list A) (v : list B) :
  length u = length v -> length (map2 f u v) = length u.
Proof.
  revert v; induction u as [|x u IH]; intros [|y v]; simpl; intros H;
    try reflexivity; try discriminate.
  f_equal. apply IH. now injection H.
Qed.

Lemma map2_nth {A B C : Type} (f : A -> B -> C) (u : list A) (v : list B)
  (k : nat) (da : A) (db : B) (dc : C) :
  (k < length u)%nat -> (k < length v)%nat ->
  nth k (map2 f u v) dc = f (nth k u da) (nth k v db).
Proof.
  revert v k; induction u as [|x u IH]; intros [|y v] [|k]; simpl; intros Hu Hv;
    try lia; try reflexivity.
  apply IH; lia.
Qed.

Lemma map2_repeat_r {A B C : Type} (f : A -> B -> C) (u : list A) (y : B) :
  map2 f u (repeat y (length u)) = map (fun x => f x y) u.
Proof.
  induction u as [|x u IH]; simpl; [reflexivity | now rewrite IH].
Qed.

Lemma combine_repeat_map {A B C : Type} (r : A) (h : C -> B) (l : list C) :
  combine (repeat r (length l)) (map h l) = map (fun x => (r, h x)) l.
Proof.
  induction l as [|x l IH]; simpl; [reflexivity | now rewrite IH].
Qed.

Lemma combine_map_repeat {A B C : Type} (h : C -> A) (r : B) (l : list C) :
  combine (map h l) (repeat r (length l)) = map (fun x => (h x, r)) l.
Proof.
  induction l as [|x l IH]; simpl; [reflexivity | now rewrite IH].
Qed.


Lemma py_range_length (a b : Z) : length (py_range a b) = Z.to_nat (b - a).
Proof. unfold py_range. now rewrite length_map, length_seq. Qed.

Lemma py_range_In (a b z : Z) : In z (py_range a b) <-> a <= z < b.
Proof.
  unfold py_range. rewrite in_map_iff. split.
  - intros (k & <- & Hk). apply in_seq in Hk. lia.
  - intros H. exists (Z.to_nat (z - a)). split; [lia|]. apply in_seq. lia.
Qed.

Lemma py_range_nth (a b : Z) (k : nat) (d : Z) :
  (k < Z.to_nat (b - a))%nat -> nth k (py_range a b) d = a + Z.of_nat k.
Proof.
  intros H. unfold py_range.
  rewrite (nth_indep _ d (a + Z.of_nat 0)) by now rewrite length_map, length_seq.
  rewrite (map_nth (fun k => a + Z.of_nat k)), seq_nth by assumption.
  reflexivity.
Qed.

Lemma py_range_cons (a b : Z) : a < b -> py_range a b = a :: py_range (a + 1) b.
Proof.
  intros H. unfold py_range.
  replace (Z.to_nat (b - a)) with (S (Z.to_nat (b - (a + 1)))) by lia.
  simpl. f_equal; [lia|].
  rewrite <- seq_shift, map_map. apply map_ext. intros k. lia.
Qed.

Lemma py_range_nil (a b : Z) : b <= a -> py_range a b = [].
Proof.
  intros H. unfold py_range. now replace (Z.to_nat (b - a)) with 0%nat by lia.
Qed.

Lemma py_range_snoc (a b : Z) :
  a <= b -> py_range a (b + 1) = py_range a b ++ [b].
Proof.
  intros H. unfold py_range.
  replace (Z.to_nat (b + 1 - a)) with (Z.to_nat (b - a) + 1)%nat by lia.
  rewrite seq_app, map_app. simpl. do 2 f_equal. lia.
Qed.

Lemma py_index_ok (n : nat) (i : Z) :
  - Z.of_nat n <= i < Z.of_nat n ->
  py_index n i = Ok (position n i) /\ (position n i < n)%nat.
Proof.
  intros H. unfold py_index, position.
  destruct (Z.ltb_spec i 0) as [Hneg|Hpos].
  - replace (0 <=? i) with false by (symmetry; apply Z.leb_gt; lia).
    replace (- Z.of_nat n <=? i) with true by (symmetry; apply Z.leb_le; lia).
    replace (i <? 0) with true by (symmetry; apply Z.ltb_lt; lia).
    simpl. split; [reflexivity | lia].
  - replace (0 <=? i) with true by (symmetry; apply Z.leb_le; lia).
    replace (i <? Z.of_nat n) with true by (symmetry; apply Z.ltb_lt; lia).
    simpl. split; [reflexivity | lia].
Qed.

Lemma py_index_inv (n : nat) (i : Z) (k : nat) :
  py_index n i = Ok k -> - Z.of_nat n <= i < Z.of_nat n /\ k = position n i.
Proof.
  unfold py_index, position. intros H.
  destruct (Z.leb_spec 0 i), (Z.ltb_spec i (Z.of_nat n)); simpl in H.
  - injection H as <-. destruct (Z.ltb_spec i 0); [lia|]. split; [lia | reflexivity].
  - destruct (Z.leb_spec (- Z.of_nat n) i), (Z.ltb_spec i 0);
      simpl in H; try discriminate; lia.
  - destruct (Z.leb_spec (- Z.of_nat n) i), (Z.ltb_spec i 0);
      simpl in H; try discriminate; try lia.
    injection H as <-. split; [lia | reflexivity].
  - destruct (Z.leb_spec (- Z.of_nat n) i), (Z.ltb_spec i 0);
      simpl in H; try discriminate; lia.
Qed.

Lemma getitem_ok {A : Type} (a : list A) (i : Z) (d : A) :
  - Z.of_nat (length a) <= i < Z.of_nat (length a) ->
  getitem a i = Ok (nth (position (length a) i) a d).
Proof.
  intros H. unfold getitem.
  destruct (py_index_ok (length a) i H) as [-> Hlt]. simpl.
  destruct (nth_error a (position (length a) i)) as [x|] eqn:E.
  - now rewrite (nth_error_nth _ _ d E).
  - apply nth_error_None in E. lia.
Qed.

Lemma getitem_nonneg {A : Type} (a : list A) (i : Z) (d : A) :
  0 <= i < Z.of_nat (length a) -> getitem a i = Ok (nth (Z.to_nat i) a d).
Proof.
  intros H. rewrite (getitem_ok a i d) by lia.
  unfold position. now replace (i <? 0) with false by (symmetry; apply Z.ltb_ge; lia).
Qed.

Lemma list_set_length {A : Type} (a : list A) (k : nat) (v : A) :
  length (list_set a k v) = length a.
Proof.
  revert k; induction a as [|x a IH]; intros [|k]; simpl; auto.
Qed.

Lemma list_set_nth {A : Type} (a : list A) (k j : nat) (v d : A) :
  (k < length a)%nat ->
  nth j (list_set a k v) d = if Nat.eqb j k then v else nth j a d.
Proof.
  revert k j; induction a as [|x a IH]; intros [|k] [|j]; simpl; intros H;
    try lia; try reflexivity.
  apply IH. lia.
Qed.

Lemma list_set_same {A : Type} (a : list A) (k : nat) (d : A) :
  list_set a k (nth k a d) = a.
Proof.
  revert k; induction a as [|x a IH]; intros [|k]; simpl; try reflexivity.
  now rewrite IH.
Qed.

Lemma list_set_twice {A : Type} (a : list A) (k : nat) (u v : A) :
  list_set (list_set a k u) k v = list_set a k v.
Proof.
  revert k; induction a as [|x a IH]; intros [|k]; simpl; try reflexivity.
  now rewrite IH.
Qed.

Lemma nth_map_lt {A B : Type} (f : A -> B) (l : list A) (k : nat) (d : A) (d' : B) :
  (k < length l)%nat -> nth k (map f l) d' = f (nth k l d).
Proof.
  intros H. rewrite (nth_indep _ d' (f d)) by now rewrite length_map.
  apply map_nth.
Qed.

Lemma map_nth_range {A : Type} (l : list A) (d : A) :
  map (fun j => nth (Z.to_nat j) l d) (py_range 0 (Z.of_nat (length l))) = l.
Proof.
  apply nth_ext with (d := d) (d' := d).
  - rewrite length_map, py_range_length. lia.
  - intros k Hk. rewrite length_map, py_range_length in Hk.
    rewrite (nth_map_lt _ _ _ 0) by (rewrite py_range_length; lia).
    rewrite py_range_nth by lia. f_equal. lia.
Qed.

(** ** The 32-bit cast of the frame offsets *)

Lemma astype_int32_id (z : Z) : - 2 ^ 31 <= z < 2 ^ 31 -> astype_int32 z = z.
Proof.
  intros H. unfold astype_int32.
  rewrite Z.mod_small; lia.
Qed.

Lemma astype_int32_bounds (z : Z) :
  0 <= z ->
  - 2 ^ 31 <= astype_int32 z <= z /\ (astype_int32 z < 0 -> 2 ^ 31 <= z).
Proof.
  intros H. unfold astype_int32.
  change (2 ^ 31) with 2147483648 in *. change (2 ^ 32) with 4294967296 in *.
  pose proof (Z.mod_pos_bound (z + 2147483648) 4294967296 eq_refl) as Hm.
  pose proof (Z.div_mod (z + 2147483648) 4294967296 ltac:(lia)) as Hd.
  assert (0 <= (z + 2147483648) / 4294967296) by (apply Z.div_pos; lia).
  lia.
Qed.

(** ** Framing *)

Lemma np_arange_length (n : Z) : length (np_arange n) = Z.to_nat n.
Proof. unfold np_arange. rewrite py_range_length. f_equal. lia. Qed.

Lemma np_arange_In (n z : Z) : In z (np_arange n) <-> 0 <= z < n.
Proof. apply py_range_In. Qed.

Lemma np_arange_nth (n : Z) (k : nat) (d : Z) :
  (k < Z.to_nat n)%nat -> nth k (np_arange n) d = Z.of_nat k.
Proof.
  intros H. unfold np_arange. rewrite py_range_nth; [reflexivity|].
  now rewrite Z.sub_0_r.
Qed.

Lemma broadcast_same {A B : Type} (op : A -> A -> B) (u v : list A) :
  length u = length v -> broadcast op u v = Ok (map2 op u v).
Proof.
  intros H. unfold broadcast. now rewrite H, Nat.eqb_refl.
Qed.

Lemma frame_indices_ok (frame_len frame_step numframes : Z) :
  0 <= frame_len -> 1 <= frame_step -> 0 <= numframes ->
  frame_indices frame_len frame_step numframes
  = Ok (index_rows frame_len frame_step numframes).
Proof.
  intros Hl Hs Hn. unfold frame_indices, np_tile, np_arange_step, np_tile_T.
  replace (numframes <? 0) with false by (symmetry; apply Z.ltb_ge; lia).
  replace (frame_step =? 0) with false by (symmetry; apply Z.eqb_neq; lia).
  replace (frame_len <? 0) with false by (symmetry; apply Z.ltb_ge; lia).
  simpl.
  replace (- (- (numframes * frame_step) / frame_step)) with numframes.
  2:{ rewrite <- Z.mul_opp_l, Z.div_mul by lia. lia. }
  unfold broadcast2.
  rewrite !length_map, repeat_length, np_arange_length, Nat.eqb_refl.
  rewrite !map_map.
  rewrite <- (np_arange_length numframes) at 1.
  rewrite combine_repeat_map.
  unfold index_rows.
  rewrite (mapM_ok_map _
    (fun p : list Z * list Z => map (fun j => j + nth 0 (snd p) 0) (fst p))).
  - rewrite map_map. f_equal. apply map_ext_in. intros i Hi. simpl.
    destruct (Z.to_nat frame_len) eqn:E; simpl; [|reflexivity].
    unfold np_arange, py_range. rewrite Z.sub_0_r, E. reflexivity.
  - intros [u v] Hin. apply in_map_iff in Hin as (i & Heq & Hi).
    injection Heq as <- <-. simpl.
    rewrite broadcast_same
      by now rewrite length_map, repeat_length, np_arange_length.
    f_equal. rewrite map_repeat.
    rewrite <- (np_arange_length frame_len), map2_repeat_r.
    apply map_ext_in. intros j Hj. apply np_arange_In in Hj. f_equal.
    rewrite np_arange_length.
    destruct (Z.to_nat frame_len) eqn:E; [lia | reflexivity].
Qed.

Lemma Qceiling_div_spec (a b : Z) :
  0 < b ->
  a <= Qceiling (inject_Z a / inject_Z b) * b < a + b.
Proof.
  intros Hb.
  set (x := (inject_Z a / inject_Z b)%Q).
  assert (Hb' : (0 < inject_Z b)%Q).
  { change 0%Q with (inject_Z 0). rewrite <- Zlt_Qlt. exact Hb. }
  assert (Hx : (x * inject_Z b == inject_Z a)%Q).
  { unfold x. field. intros E. rewrite E in Hb'. now apply Qlt_irrefl in Hb'. }
  pose proof (Qle_ceiling x) as Hle.
  pose proof (Qceiling_lt x) as Hlt.
  split.
  - rewrite Zle_Qle, inject_Z_mult, <- Hx.
    apply Qmult_le_compat_r; [exact Hle | now apply Qlt_le_weak].
  - rewrite Zlt_Qlt, inject_Z_plus, inject_Z_mult, <- Hx.
    replace (Qceiling x - 1) with (Qceiling x + -1) in Hlt by lia.
    rewrite inject_Z_plus in Hlt. change (inject_Z (-1)) with (-1 # 1)%Q in Hlt.
    setoid_replace (x * inject_Z b + inject_Z b)%Q
      with ((x + 1) * inject_Z b)%Q by ring.
    apply Qmult_lt_compat_r; [exact Hb'|].
    lra.
Qed.

Lemma framesig_numframes_ok (slen frame_len frame_step : Z) :
  1 <= frame_step ->
  exists n,
    framesig_numframes slen frame_len frame_step = Ok n /\
    n = (if slen <=? frame_len then 1
         else 1 + Qceiling (inject_Z (slen - frame_len) / inject_Z frame_step)) /\
    1 <= n /\ slen <= (n - 1) * frame_step + frame_len /\
    (n - 1) * frame_step + frame_len < Z.max slen frame_len + frame_step.
Proof.
  intros Hs. unfold framesig_numframes.
  destruct (Z.leb_spec slen frame_len) as [Hle|Hgt].
  - exists 1. repeat split; lia.
  - replace (frame_step =? 0) with false by (symmetry; apply Z.eqb_neq; lia).
    eexists. split; [reflexivity|]. split; [reflexivity|].
    pose proof (Qceiling_div_spec (slen - frame_len) frame_step ltac:(lia)) as H.
    repeat split; nia.
Qed.

Lemma index_valid (fl fs n i j : Z) :
  1 <= fs -> 0 <= i < n -> 0 <= j < fl ->
  - ((n - 1) * fs + fl) <= j + astype_int32 (i * fs) < (n - 1) * fs + fl.
Proof.
  intros Hs Hi Hj.
  destruct (astype_int32_bounds (i * fs) ltac:(nia)) as [Hb Hneg].
  assert (i * fs <= (n - 1) * fs) by nia.
  destruct (Z.ltb_spec (astype_int32 (i * fs)) 0) as [Hlt|Hge].
  - specialize (Hneg Hlt). lia.
  - lia.
Qed.

Lemma take2_index_rows (pad : vec) (fl fs n : Z) :
  1 <= fs -> Z.of_nat (length pad) = (n - 1) * fs + fl ->
  take2 pad (index_rows fl fs n)
  = Ok (map (map (fun z => nth (position (length pad) z) pad 0%Q)) (index_rows fl fs n)).
Proof.
  intros Hs Hlen. unfold take2. apply mapM_ok_map.
  intros row Hrow. unfold index_rows in Hrow.
  apply in_map_iff in Hrow as (i & <- & Hi). apply np_arange_In in Hi.
  unfold take. apply mapM_ok_map.
  intros z Hz. apply in_map_iff in Hz as (j & <- & Hj). apply np_arange_In in Hj.
  apply getitem_ok. rewrite Hlen. now apply index_valid.
Qed.

Lemma index_rows_length (fl fs n : Z) : length (index_rows fl fs n) = Z.to_nat n.
Proof. unfold index_rows. now rewrite length_map, np_arange_length. Qed.

Lemma index_rows_row_length (fl fs n : Z) (row : list Z) :
  In row (index_rows fl fs n) -> length row = Z.to_nat fl.
Proof.
  unfold index_rows. intros H. apply in_map_iff in H as (i & <- & _).
  now rewrite length_map, np_arange_length.
Qed.

Lemma framesig_eq (sig : vec) (frame_len frame_step : Q)
  (winfunc : Z -> result vec) (w : vec) :
  let fl := py_round frame_len in
  let fs := py_round frame_step in
  let slen := Z.of_nat (length sig) in
  1 <= fl -> 1 <= fs ->
  winfunc fl = Ok w -> length w = Z.to_nat fl ->
  exists n,
    framesig_numframes slen fl fs = Ok n /\ 1 <= n /\
    slen <= (n - 1) * fs + fl /\
    framesig sig frame_len frame_step winfunc
    = Ok (frames_of (sig ++ repeat 0%Q (Z.to_nat ((n - 1) * fs + fl - slen)))
                    w fl fs n).
Proof.
  intros fl fs slen Hl Hs Hw Hwl.
  destruct (framesig_numframes_ok slen fl fs Hs) as (n & Hn & _ & Hn1 & Hpad & _).
  exists n. repeat split; try assumption.
  unfold framesig. fold fl fs slen. rewrite Hn. simpl.
  unfold np_zeros.
  replace ((n - 1) * fs + fl - slen <? 0) with false
    by (symmetry; apply Z.ltb_ge; lia).
  simpl. rewrite frame_indices_ok by lia. simpl.
  set (pad := sig ++ repeat 0%Q (Z.to_nat ((n - 1) * fs + fl - slen))).
  assert (Hlen : Z.of_nat (length pad) = (n - 1) * fs + fl).
  { unfold pad. rewrite length_app, repeat_length. unfold slen. lia. }
  rewrite take2_index_rows by assumption. simpl.
  rewrite Hw. simpl. unfold np_tile.
  replace (n <? 0) with false by (symmetry; apply Z.ltb_ge; lia).
  simpl. unfold broadcast2.
  rewrite length_map, repeat_length, index_rows_length, Nat.eqb_refl.
  rewrite <- (index_rows_length fl fs n), combine_map_repeat.
  rewrite (mapM_ok_map _ (fun p => map2 Qmult (fst p) (snd p))).
  - f_equal. unfold frames_of. rewrite !map_map. reflexivity.
  - intros [u v] Hin. apply in_map_iff in Hin as (row & Heq & Hrow).
    injection Heq as <- <-. simpl.
    apply broadcast_same. rewrite length_map.
    rewrite (index_rows_row_length _ _ _ _ Hrow). now symmetry.
Qed.

Lemma position_nonneg (n : nat) (z : Z) : 0 <= z -> position n z = Z.to_nat z.
Proof.
  intros H. unfold position.
  now replace (z <? 0) with false by (symmetry; apply Z.ltb_ge; lia).
Qed.

Lemma frames_of_nth (pad w : vec) (fl fs n i j : Z) :
  1 <= fs -> Z.of_nat (length pad) = (n - 1) * fs + fl ->
  (n - 1) * fs + fl <= 2 ^ 31 -> length w = Z.to_nat fl ->
  0 <= i < n -> 0 <= j < fl ->
  nth (Z.to_nat j) (nth (Z.to_nat i) (frames_of pad w fl fs n) []) 0%Q
  = (nth (Z.to_nat (i * fs + j)) pad 0 * nth (Z.to_nat j) w 0)%Q.
Proof.
  intros Hs Hlen Hsmall Hw Hi Hj.
  unfold frames_of, index_rows. rewrite map_map.
  rewrite (nth_map_lt _ _ _ 0) by (rewrite np_arange_length; lia).
  rewrite np_arange_nth by lia.
  rewrite (map2_nth _ _ _ _ 0%Q 0%Q)
    by (rewrite ?length_map, ?np_arange_length; lia).
  rewrite map_map, (nth_map_lt _ _ _ 0) by (rewrite np_arange_length; lia).
  rewrite np_arange_nth by lia.
  rewrite !Z2Nat.id by lia.
  rewrite astype_int32_id by nia.
  rewrite position_nonneg by nia.
  do 2 f_equal. lia.
Qed.

Lemma frames_of_single (pad w : vec) (fl fs : Z) :
  Z.of_nat (length pad) = fl -> frames_of pad w fl fs 1 = [map2 Qmult pad w].
Proof.
  intros Hlen. unfold frames_of, index_rows. simpl.
  rewrite map_map. do 2 f_equal.
  etransitivity; [|apply (map_nth_range pad 0%Q)]. rewrite Hlen.
  apply map_ext_in. intros j Hj. apply np_arange_In in Hj.
  rewrite astype_int32_id by (simpl; lia).
  rewrite Z.add_0_r, position_nonneg by lia. reflexivity.
Qed.

(** C4.  With a rounded frame length and frame step of at least one sample
    and a window of [frame_len] weights, [framesig] returns one frame when
    the signal is not longer than a frame and
    [1 + ceil((len - frame_len) / frame_step)] frames otherwise.  The frames
    are read from the signal padded with zeros on the right to exactly
    [(numframes - 1) * frame_step + frame_len] samples; a signal shorter than
    a frame gives the single frame made of the padded signal. *)
Theorem framesig_frame_count (sig : vec) (frame_len frame_step : Q)
  (winfunc : Z -> result vec) (w : vec) :
  let fl := py_round frame_len in
  let fs := py_round frame_step in
  let slen := Z.of_nat (length sig) in
  let numframes :=
    if slen <=? fl then 1
    else 1 + Qceiling (inject_Z (slen - fl) / inject_Z fs) in
  let padlen := (numframes - 1) * fs + fl in
  let padsignal := sig ++ repeat 0%Q (Z.to_nat (padlen - slen)) in
  1 <= fl -> 1 <= fs ->
  winfunc fl = Ok w -> length w = Z.to_nat fl ->
  exists frames,
    framesig sig frame_len frame_step winfunc = Ok frames /\
    Z.of_nat (length frames) = numframes /\
    Forall (fun row => length row = Z.to_nat fl) frames /\
    slen <= padlen /\
    Z.of_nat (length padsignal) = padlen /\
    frames = frames_of padsignal w fl fs numframes /\
    (padlen <= 2 ^ 31 ->
     forall i j, 0 <= i < numframes -> 0 <= j < fl ->
       nth (Z.to_nat j) (nth (Z.to_nat i) frames []) 0%Q
       = (nth (Z.to_nat (i * fs + j)) padsignal 0 * nth (Z.to_nat j) w 0)%Q) /\
    (slen <= fl -> frames = [map2 Qmult padsignal w]).
Proof.
  intros fl fs slen numframes padlen padsignal Hl Hs Hw Hwl.
  destruct (framesig_eq sig frame_len frame_step winfunc w Hl Hs Hw Hwl)
    as (n & Hn & Hn1 & Hpad & Heq).
  fold fl fs slen in Hn, Hpad, Heq.
  destruct (framesig_numframes_ok slen fl fs Hs) as (n' & Hn' & Hform & _).
  rewrite Hn in Hn'. injection Hn' as <-.
  assert (Hnn : n = numframes) by exact Hform. clear Hform. subst n.
  fold padlen in Hpad, Heq. fold padsignal in Heq.
  assert (Hlen : Z.of_nat (length padsignal) = padlen).
  { unfold padsignal. rewrite length_app, repeat_length. unfold slen in *. lia. }
  exists (frames_of padsignal w fl fs numframes).
  split; [exact Heq|]. split.
  { unfold frames_of. rewrite length_map, index_rows_length. lia. }
  split.
  { apply Forall_forall. intros row Hrow. unfold frames_of in Hrow.
    apply in_map_iff in Hrow as (idx & <- & Hidx).
    rewrite map2_length; rewrite length_map;
      rewrite (index_rows_row_length _ _ _ _ Hidx); [reflexivity | now symmetry]. }
  split; [exact Hpad|]. split; [exact Hlen|]. split; [reflexivity|]. split.
  - intros Hsmall i j Hi Hj. now apply frames_of_nth.
  - intros Hshort.
    assert (Hone : numframes = 1).
    { unfold numframes. now replace (slen <=? fl) with true
        by (symmetry; apply Z.leb_le; exact Hshort). }
    rewrite Hone. apply frames_of_single. rewrite Hlen. unfold padlen. lia.
Qed.

Lemma framesig_frame_count_witness :
  exists frames,
    framesig [1; 2; 3; 4; 5]%Q 2 2 rect_window = Ok frames /\
    Z.of_nat (length frames) = 3.
Proof.
  destruct (framesig_frame_count [1; 2; 3; 4; 5]%Q 2 2 rect_window [1; 1]%Q)
    as (frames & Hrun & Hcount & _).
  - vm_compute. discriminate.
  - vm_compute. discriminate.
  - reflexivity.
  - reflexivity.
  - exists frames. split; [exact Hrun | exact Hcount].
Defined.

(** ** Stores through index arrays *)

Lemma foldM_app {A S : Type} (body : A -> S -> result S) (l1 l2 : list A) (s : S) :
  foldM body (l1 ++ l2) s = bind (foldM body l1 s) (foldM body l2).
Proof.
  revert s; induction l1 as [|x l1 IH]; intros s; simpl; [reflexivity|].
  destruct (body x s) as [s'|e]; simpl; [apply IH | reflexivity].
Qed.

Lemma setitem_ok {A : Type} (a : list A) (i : Z) (v : A) :
  0 <= i < Z.of_nat (length a) -> setitem a i v = Ok (list_set a (Z.to_nat i) v).
Proof.
  intros H. unfold setitem.
  destruct (py_index_ok (length a) i ltac:(lia)) as [-> _]. simpl.
  now rewrite position_nonneg by lia.
Qed.

(** A run of stores [acc[ix x] = val x] at valid non-negative indices: it
    succeeds, keeps the length, leaves the other positions alone and, when
    no index repeats, leaves [val x] at [ix x]. *)
Lemma foldM_setitem_spec {X A : Type} (ix : X -> Z) (val : X -> A) (d : A)
  (l : list X) (a : list A) :
  (forall x, In x l -> 0 <= ix x < Z.of_nat (length a)) ->
  exists a',
    foldM (fun x acc => setitem acc (ix x) (val x)) l a = Ok a' /\
    length a' = length a /\
    (forall q, (forall x, In x l -> Z.to_nat (ix x) <> q) -> nth q a' d = nth q a d) /\
    (NoDup (map ix l) -> forall x, In x l -> nth (Z.to_nat (ix x)) a' d = val x).
Proof.
  revert a; induction l as [|x l IH]; intros a Hvalid; simpl.
  - exists a. repeat split; auto. intros _ x [].
  - rewrite setitem_ok by (apply Hvalid; now left). simpl.
    destruct (IH (list_set a (Z.to_nat (ix x)) (val x))) as (a' & Hrun & Hlen & Hout & Hin).
    { intros y Hy. rewrite list_set_length. apply Hvalid. now right. }
    exists a'. split; [exact Hrun|]. split.
    { now rewrite Hlen, list_set_length. }
    assert (Hx : 0 <= ix x < Z.of_nat (length a)) by (apply Hvalid; now left).
    split.
    + intros q Hq. rewrite Hout by (intros y Hy; apply Hq; now right).
      rewrite list_set_nth by lia.
      destruct (Nat.eqb_spec q (Z.to_nat (ix x))) as [->|]; [|reflexivity].
      exfalso. now apply (Hq x (or_introl eq_refl)).
    + intros Hnd y [<-|Hy].
      * inversion Hnd as [|? ? Hnotin Hnd']; subst.
        rewrite Hout.
        -- rewrite list_set_nth by lia. now rewrite Nat.eqb_refl.
        -- intros z Hz E. apply Hnotin. apply in_map_iff. exists z. split; [|exact Hz].
           assert (0 <= ix z < Z.of_nat (length a)) by (apply Hvalid; now right).
           lia.
      * inversion Hnd; subst. now apply Hin.
Qed.




(** ** Overlap-add *)











Lemma Forall_nth_lt {A : Type} (P : A -> Prop) (l : list A) (d : A) :
  (forall k, (k < length l)%nat -> P (nth k l d)) -> Forall P l.
Proof.
  intros H. apply Forall_forall. intros x Hx.
  destruct (In_nth l x d Hx) as (k & Hk & <-). now apply H.
Qed.



Lemma frames_of_shape (pad w : vec) (fl fs n : Z) :
  0 <= n -> length w = Z.to_nat fl ->
  length (frames_of pad w fl fs n) = Z.to_nat n /\
  Forall (fun row => length row = Z.to_nat fl) (frames_of pad w fl fs n).
Proof.
  intros Hn Hw. unfold frames_of. split.
  - now rewrite length_map, index_rows_length.
  - apply Forall_forall. intros row Hrow.
    apply in_map_iff in Hrow as (idx & <- & Hidx).
    rewrite map2_length; rewrite length_map;
      rewrite (index_rows_row_length _ _ _ _ Hidx); [reflexivity | now symmetry].
Qed.





(** The rectangular round trip in binary64, on a sample 1 that lies in one
    frame: [1 + 1e-15] is rounded to [1 + 5 * 2^-52] and the quotient is
    0.9999999999999989, which is [10 * 2^-53], a little more than [1e-15],
    below the sample. *)
Lemma rectangular_round_trip_in_binary64 :
  (1 + Binary64.window_bias = 0x1.0000000000005p+0)%float /\
  Binary64.overlap_quotient (1 * 1) 1 = 0x1.ffffffffffff6p-1%float /\
  (1 - Binary64.overlap_quotient (1 * 1) 1 = 0x1.4p-50)%float /\
  (Binary64.window_bias <? 1 - Binary64.overlap_quotient (1 * 1) 1)%float = true /\
  (b64_round (1 + window_bias) == 1 + 5 * (1 # 2 ^ 52))%Q.
Proof.
  repeat split; reflexivity.
Qed.

(** ** The Mel filterbank *)

Lemma setitem2_ok (a : mat) (j i : Z) (v : Q) :
  0 <= j < Z.of_nat (length a) ->
  0 <= i < Z.of_nat (length (nth (Z.to_nat j) a [])) ->
  setitem2 a j i v
  = Ok (list_set a (Z.to_nat j) (list_set (nth (Z.to_nat j) a []) (Z.to_nat i) v)).
Proof.
  intros Hj Hi. unfold setitem2.
  rewrite (getitem_nonneg a j []) by exact Hj. simpl.
  rewrite setitem_ok by exact Hi. simpl.
  now rewrite setitem_ok by exact Hj.
Qed.

(** A run of stores in row [j] of a matrix is the same run on the row. *)
Lemma foldM_setitem2_row (val : Z -> Q) (j : Z) (l : list Z) (a : mat) :
  0 <= j < Z.of_nat (length a) ->
  (forall i, In i l -> 0 <= i < Z.of_nat (length (nth (Z.to_nat j) a []))) ->
  exists row,
    foldM (fun i r => setitem r i (val i)) l (nth (Z.to_nat j) a []) = Ok row /\
    foldM (fun i fb => setitem2 fb j i (val i)) l a = Ok (list_set a (Z.to_nat j) row).
Proof.
  revert a; induction l as [|i l IH]; intros a Hj Hl; simpl.
  - eexists. split; [reflexivity|]. now rewrite list_set_same.
  - assert (Hi : 0 <= i < Z.of_nat (length (nth (Z.to_nat j) a [])))
      by (apply Hl; now left).
    rewrite setitem2_ok, setitem_ok by assumption. simpl.
    set (row1 := list_set (nth (Z.to_nat j) a []) (Z.to_nat i) (val i)).
    set (a1 := list_set a (Z.to_nat j) row1).
    assert (Hrow1 : nth (Z.to_nat j) a1 [] = row1).
    { unfold a1. rewrite list_set_nth by lia. now rewrite Nat.eqb_refl. }
    destruct (IH a1) as (row & Hrow & Hrun).
    { unfold a1. rewrite list_set_length. exact Hj. }
    { intros i' Hi'. rewrite Hrow1. unfold row1. rewrite list_set_length.
      apply Hl. now right. }
    exists row. rewrite Hrow1 in Hrow. split; [exact Hrow|].
    rewrite Hrun. unfold a1. now rewrite list_set_twice.
Qed.

Lemma NoDup_py_range (a b : Z) : NoDup (py_range a b).
Proof.
  unfold py_range. apply Injective_map_NoDup; [|apply seq_NoDup].
  intros x y. lia.
Qed.

(** The two loops of [fill_filter] on a row of zeros leave the triangle. *)
Lemma fill_filter_ok (fbin : list Z) (j : Z) (fbank : mat) (ncols : Z) :
  0 <= j < Z.of_nat (length fbank) ->
  Z.of_nat (length fbin) >= j + 3 ->
  Forall (fun b => 0 <= b <= ncols) fbin ->
  nth (Z.to_nat j) fbank [] = repeat 0%Q (Z.to_nat ncols) ->
  fill_filter fbin j fbank = Ok (list_set fbank (Z.to_nat j) (filter_row fbin ncols j)).
Proof.
  intros Hj Hlen Hbins Hzero. unfold fill_filter.
  assert (Hb : forall k, 0 <= k < Z.of_nat (length fbin) ->
                         0 <= nth (Z.to_nat k) fbin 0 <= ncols).
  { intros k Hk. rewrite Forall_forall in Hbins. apply Hbins. apply nth_In. lia. }
  rewrite !(getitem_nonneg fbin _ 0) by lia. simpl.
  set (b0 := nth (Z.to_nat j) fbin 0).
  set (b1 := nth (Z.to_nat (j + 1)) fbin 0).
  pose proof (Hb j ltac:(lia)) as Hb0. fold b0 in Hb0.
  pose proof (Hb (j + 1) ltac:(lia)) as Hb1. fold b1 in Hb1.
  pose proof (Hb (j + 2) ltac:(lia)) as Hb2.
  destruct (foldM_setitem2_row
              (fun i => (inject_Z (i - b0) / inject_Z (b1 - b0))%Q) j
              (py_range b0 b1) fbank Hj) as (row1 & Hrow1 & Hrun1).
  { intros i Hi. apply py_range_In in Hi. rewrite Hzero, repeat_length. lia. }
  rewrite Hrun1. simpl.
  set (b2 := nth (Z.to_nat (j + 2)) fbin 0). fold b2 in Hb2.
  destruct (foldM_setitem_spec (fun i : Z => i)
              (fun i => (inject_Z (i - b0) / inject_Z (b1 - b0))%Q) 0%Q
              (py_range b0 b1) (nth (Z.to_nat j) fbank []))
    as (r1 & Hr1 & Hl1 & Hout1 & Hin1).
  { intros i Hi. apply py_range_In in Hi. rewrite Hzero, repeat_length. lia. }
  rewrite Hrow1 in Hr1. injection Hr1 as <-.
  set (fbank1 := list_set fbank (Z.to_nat j) row1).
  assert (Hnth1 : nth (Z.to_nat j) fbank1 [] = row1).
  { unfold fbank1. rewrite list_set_nth by lia. now rewrite Nat.eqb_refl. }
  destruct (foldM_setitem2_row
              (fun i => (inject_Z (b2 - i) / inject_Z (b2 - b1))%Q) j
              (py_range b1 b2) fbank1) as (row2 & Hrow2 & Hrun2).
  { unfold fbank1. now rewrite list_set_length. }
  { intros i Hi. apply py_range_In in Hi.
    rewrite Hnth1, Hl1, Hzero, repeat_length. lia. }
  rewrite Hrun2. f_equal. unfold fbank1. rewrite list_set_twice. f_equal.
  destruct (foldM_setitem_spec (fun i : Z => i)
              (fun i => (inject_Z (b2 - i) / inject_Z (b2 - b1))%Q) 0%Q
              (py_range b1 b2) row1)
    as (r2 & Hr2 & Hl2 & Hout2 & Hin2).
  { intros i Hi. apply py_range_In in Hi. rewrite Hl1, Hzero, repeat_length. lia. }
  rewrite Hnth1 in Hrow2. rewrite Hrow2 in Hr2. injection Hr2 as <-.
  rewrite map_id in Hin1, Hin2.
  specialize (Hin1 (NoDup_py_range b0 b1)). specialize (Hin2 (NoDup_py_range b1 b2)).
  apply nth_ext with (d := 0%Q) (d' := 0%Q).
  { unfold filter_row. rewrite Hl2, Hl1, Hzero, repeat_length, length_map,
      np_arange_length. reflexivity. }
  intros q Hq. rewrite Hl2, Hl1, Hzero, repeat_length in Hq.
  unfold filter_row. rewrite (nth_map_lt _ _ _ 0) by (rewrite np_arange_length; lia).
  rewrite np_arange_nth by lia. fold b0 b1 b2. unfold triangle.
  destruct ((b0 <=? Z.of_nat q) && (Z.of_nat q <? b1)) eqn:E1.
  - apply andb_prop in E1 as [E1a E1b]. apply Z.leb_le in E1a. apply Z.ltb_lt in E1b.
    rewrite Hout2.
    + rewrite <- (Nat2Z.id q) at 1. apply Hin1. apply py_range_In. lia.
    + intros i Hi. apply py_range_In in Hi. lia.
  - destruct ((b1 <=? Z.of_nat q) && (Z.of_nat q <? b2)) eqn:E2.
    + apply andb_prop in E2 as [E2a E2b]. apply Z.leb_le in E2a. apply Z.ltb_lt in E2b.
      rewrite <- (Nat2Z.id q) at 1. apply Hin2. apply py_range_In. lia.
    + rewrite Hout2, Hout1, Hzero; [apply nth_repeat| |].
      * intros i Hi. apply py_range_In in Hi.
        apply andb_false_iff in E1 as [E|E];
          [apply Z.leb_gt in E | apply Z.ltb_ge in E]; lia.
      * intros i Hi. apply py_range_In in Hi.
        apply andb_false_iff in E2 as [E|E];
          [apply Z.leb_gt in E | apply Z.ltb_ge in E]; lia.
Qed.

Section Filterbank.
Context {libm : Libm}.

Lemma control_bins_length (n_filters n_fft : Z) (fs minfreq maxfreq : Q)
  (fbin : list Z) :
  0 <= n_filters ->
  control_bins n_filters n_fft fs minfreq maxfreq = Ok fbin ->
  Z.of_nat (length fbin) = n_filters + 2.
Proof.
  intros Hn H. unfold control_bins in H.
  apply bind_ok_inv in H as (melpoints & Hmel & Hbins).
  unfold np_linspace in Hmel.
  replace (n_filters + 2 <? 0) with false in Hmel by (symmetry; apply Z.ltb_ge; lia).
  replace (n_filters + 2 =? 1) with false in Hmel by (symmetry; apply Z.eqb_neq; lia).
  injection Hmel as <-.
  apply mapM_length in Hbins. rewrite Hbins, length_map, np_arange_length. lia.
Qed.

Lemma fill_loop (fbin : list Z) (n ncols : Z) :
  0 <= n -> 0 <= ncols ->
  Z.of_nat (length fbin) = n + 2 ->
  Forall (fun b => 0 <= b <= ncols) fbin ->
  forall k : nat, Z.of_nat k <= n ->
    foldM (fill_filter fbin) (py_range 0 (Z.of_nat k))
          (repeat (repeat 0%Q (Z.to_nat ncols)) (Z.to_nat n))
    = Ok (map (fun j => if j <? Z.of_nat k then filter_row fbin ncols j
                        else repeat 0%Q (Z.to_nat ncols))
              (py_range 0 n)).
Proof.
  intros Hn Hc Hlen Hbins. induction k as [|k IH]; intros Hk.
  - simpl. f_equal. apply nth_ext with (d := []) (d' := []).
    + now rewrite repeat_length, length_map, py_range_length, Z.sub_0_r.
    + intros q Hq. rewrite repeat_length in Hq.
      rewrite nth_repeat_lt by exact Hq.
      rewrite (nth_map_lt _ _ _ 0) by (rewrite py_range_length; lia).
      rewrite py_range_nth by lia.
      now replace (0 + Z.of_nat q <? 0) with false by (symmetry; apply Z.ltb_ge; lia).
  - rewrite Nat2Z.inj_succ, <- Z.add_1_r, py_range_snoc by lia.
    rewrite foldM_app, IH by lia. simpl.
    set (st := map _ (py_range 0 n)).
    assert (Hst : length st = Z.to_nat n)
      by (unfold st; rewrite length_map, py_range_length; f_equal; lia).
    rewrite (fill_filter_ok fbin (Z.of_nat k) st ncols); try assumption; try lia.
    + simpl. f_equal. apply nth_ext with (d := []) (d' := []).
      * now rewrite list_set_length, Hst, length_map, py_range_length, Z.sub_0_r.
      * intros q Hq. rewrite list_set_length, Hst in Hq.
        rewrite list_set_nth by lia. unfold st.
        rewrite !(nth_map_lt _ _ _ 0) by (rewrite py_range_length; lia).
        rewrite py_range_nth by lia. rewrite Nat2Z.id, Z.add_0_l.
        destruct (Nat.eqb_spec q k) as [->|Hne].
        -- now replace (Z.of_nat k <? Z.of_nat k + 1) with true
             by (symmetry; apply Z.ltb_lt; lia).
        -- destruct (Z.ltb_spec (Z.of_nat q) (Z.of_nat k)),
             (Z.ltb_spec (Z.of_nat q) (Z.of_nat k + 1)); try reflexivity; lia.
    + unfold st. rewrite (nth_map_lt _ _ _ 0) by (rewrite py_range_length; lia).
      rewrite py_range_nth by lia. rewrite Nat2Z.id, Z.add_0_l.
      now rewrite Z.ltb_irrefl.
Qed.

(** What [get_filterbanks] returns when its assertion holds and the control
    bins lie on the bin axis. *)
Lemma get_filterbanks_eq (n_filters n_fft : Z) (fs minfreq : Q)
  (maxfreq : option Q) (fbin : list Z) :
  let top := match maxfreq with None => half_rate fs | Some f => f end in
  let ncols := n_fft / 2 + 1 in
  0 <= n_filters ->
  Qle_bool top (half_rate fs) = true ->
  control_bins n_filters n_fft fs minfreq top = Ok fbin ->
  Forall (fun b => 0 <= b <= ncols) fbin ->
  get_filterbanks n_filters n_fft fs minfreq maxfreq
  = Ok (map (filter_row fbin ncols) (py_range 0 n_filters)).
Proof.
  intros top ncols Hn Hassert Hbins Hrange.
  pose proof (control_bins_length _ _ _ _ _ _ Hn Hbins) as Hlen.
  assert (Hc : 0 <= ncols).
  { destruct fbin as [|b fbin]; [simpl in Hlen; lia|].
    inversion Hrange; subst. lia. }
  unfold get_filterbanks. fold top. rewrite Hassert. simpl.
  rewrite Hbins. simpl. unfold np_zeros2. fold ncols.
  replace (n_filters <? 0) with false by (symmetry; apply Z.ltb_ge; lia).
  replace (ncols <? 0) with false by (symmetry; apply Z.ltb_ge; lia).
  simpl. rewrite <- (Z2Nat.id n_filters) at 1 by lia.
  rewrite (fill_loop fbin n_filters ncols) by (try assumption; lia).
  f_equal. apply map_ext_in. intros j Hj. apply py_range_In in Hj.
  now replace (j <? Z.of_nat (Z.to_nat n_filters)) with true
    by (symmetry; apply Z.ltb_lt; lia).
Qed.

End Filterbank.

(** *** The shape of one triangle *)

Lemma Qdiv_Z_le (a a' d : Z) :
  0 < d -> a <= a' -> (inject_Z a / inject_Z d <= inject_Z a' / inject_Z d)%Q.
Proof.
  intros Hd Ha. unfold Qdiv. apply Qmult_le_compat_r.
  - rewrite <- Zle_Qle. exact Ha.
  - apply Qinv_le_0_compat. change 0%Q with (inject_Z 0). rewrite <- Zle_Qle. lia.
Qed.

Lemma Qdiv_Z_same (d : Z) : 0 < d -> (inject_Z d / inject_Z d == 1)%Q.
Proof.
  intros Hd. field. intros E.
  assert (H : (inject_Z 0 < inject_Z d)%Q) by (rewrite <- Zlt_Qlt; exact Hd).
  rewrite E in H. now apply Qlt_irrefl in H.
Qed.

Lemma Qdiv_Z_zero (d : Z) : (inject_Z 0 / inject_Z d == 0)%Q.
Proof. unfold Qdiv. apply Qmult_0_l. Qed.

Lemma triangle_rise (b0 b1 b2 i : Z) :
  b0 < b1 < b2 -> b0 <= i <= b1 ->
  (triangle b0 b1 b2 i == inject_Z (i - b0) / inject_Z (b1 - b0))%Q.
Proof.
  intros Hb Hi. unfold triangle.
  destruct (Z.eq_dec i b1) as [->|Hne].
  - replace (b1 <? b1) with false by (symmetry; apply Z.ltb_irrefl).
    rewrite andb_false_r.
    replace (b1 <=? b1) with true by (symmetry; apply Z.leb_refl).
    replace (b1 <? b2) with true by (symmetry; apply Z.ltb_lt; lia).
    simpl. rewrite !Qdiv_Z_same by lia. reflexivity.
  - replace (b0 <=? i) with true by (symmetry; apply Z.leb_le; lia).
    replace (i <? b1) with true by (symmetry; apply Z.ltb_lt; lia).
    reflexivity.
Qed.

Lemma triangle_fall (b0 b1 b2 i : Z) :
  b0 < b1 < b2 -> b1 <= i <= b2 ->
  (triangle b0 b1 b2 i == inject_Z (b2 - i) / inject_Z (b2 - b1))%Q.
Proof.
  intros Hb Hi. unfold triangle.
  replace (i <? b1) with false by (symmetry; apply Z.ltb_ge; lia).
  rewrite andb_false_r.
  replace (b1 <=? i) with true by (symmetry; apply Z.leb_le; lia).
  destruct (Z.ltb_spec i b2) as [Hlt|Hge]; simpl; [reflexivity|].
  replace i with b2 by lia. rewrite Z.sub_diag. now rewrite Qdiv_Z_zero.
Qed.

Lemma triangle_outside (b0 b1 b2 i : Z) :
  b0 < b1 <= b2 -> i <= b0 \/ b2 <= i -> (triangle b0 b1 b2 i == 0)%Q.
Proof.
  intros Hb Hi. unfold triangle.
  destruct (Z.leb_spec b0 i), (Z.ltb_spec i b1); simpl.
  - replace i with b0 by lia. rewrite Z.sub_diag. apply Qdiv_Z_zero.
  - destruct (Z.leb_spec b1 i), (Z.ltb_spec i b2); simpl; try reflexivity. lia.
  - destruct (Z.leb_spec b1 i), (Z.ltb_spec i b2); simpl; try reflexivity. lia.
  - destruct (Z.leb_spec b1 i), (Z.ltb_spec i b2); simpl; try reflexivity. lia.
Qed.

Lemma triangle_range (b0 b1 b2 i : Z) : (0 <= triangle b0 b1 b2 i <= 1)%Q.
Proof.
  unfold triangle.
  destruct ((b0 <=? i) && (i <? b1)) eqn:E1;
    [|destruct ((b1 <=? i) && (i <? b2)) eqn:E2].
  - apply andb_prop in E1 as [Ha Hb]. apply Z.leb_le in Ha. apply Z.ltb_lt in Hb.
    split.
    + rewrite <- (Qdiv_Z_zero (b1 - b0)). apply Qdiv_Z_le; lia.
    + rewrite <- (Qdiv_Z_same (b1 - b0)) by lia. apply Qdiv_Z_le; lia.
  - apply andb_prop in E2 as [Ha Hb]. apply Z.leb_le in Ha. apply Z.ltb_lt in Hb.
    split.
    + rewrite <- (Qdiv_Z_zero (b2 - b1)). apply Qdiv_Z_le; lia.
    + rewrite <- (Qdiv_Z_same (b2 - b1)) by lia. apply Qdiv_Z_le; lia.
  - split; [apply Qle_refl | discriminate].
Qed.

Lemma filter_row_nth (fbin : list Z) (ncols j i : Z) :
  0 <= i < ncols ->
  nth (Z.to_nat i) (filter_row fbin ncols j) 0%Q
  = triangle (nth (Z.to_nat j) fbin 0) (nth (Z.to_nat (j + 1)) fbin 0)
             (nth (Z.to_nat (j + 2)) fbin 0) i.
Proof.
  intros Hi. unfold filter_row.
  rewrite (nth_map_lt _ _ _ 0) by (rewrite np_arange_length; lia).
  rewrite np_arange_nth by lia. f_equal. lia.
Qed.

Lemma filter_row_length (fbin : list Z) (ncols j : Z) :
  length (filter_row fbin ncols j) = Z.to_nat ncols.
Proof. unfold filter_row. now rewrite length_map, np_arange_length. Qed.

Section FilterbankClaims.
Context {libm : Libm}.

Lemma get_filterbanks_ok_inv (n_filters n_fft : Z) (fs minfreq : Q)
  (maxfreq : option Q) (fb : mat) :
  let top := match maxfreq with None => half_rate fs | Some f => f end in
  get_filterbanks n_filters n_fft fs minfreq maxfreq = Ok fb ->
  Qle_bool top (half_rate fs) = true /\ 0 <= n_filters.
Proof.
  intros top H. unfold get_filterbanks in H. fold top in H.
  destruct (Qle_bool top (half_rate fs)); [|discriminate]. simpl in H.
  split; [reflexivity|].
  apply bind_ok_inv in H as (fbin & _ & H).
  apply bind_ok_inv in H as (zeros & Hz & _).
  unfold np_zeros2 in Hz.
  destruct (Z.ltb_spec n_filters 0); [discriminate | assumption].
Qed.

(** C6 (amended).  In a filterbank that [get_filterbanks] returns and whose
    control bins all lie on the bin axis, [0 <= b <= n_fft/2 + 1], the row
    of every filter with [b0 < b1 < b2] is a triangle:
    zero up to [b0] and from [b2] on, linear from 0 at [b0] to 1 at [b1],
    linear from 1 at [b1] back to 0 at [b2], non-decreasing on the way up and
    non-increasing on the way down, and never above 1. *)
Theorem get_filterbanks_triangular (n_filters n_fft : Z) (fs minfreq : Q)
  (maxfreq : option Q) (fbin : list Z) (fb : mat) (j : Z) :
  let top := match maxfreq with None => half_rate fs | Some f => f end in
  let ncols := n_fft / 2 + 1 in
  let b0 := nth (Z.to_nat j) fbin 0 in
  let b1 := nth (Z.to_nat (j + 1)) fbin 0 in
  let b2 := nth (Z.to_nat (j + 2)) fbin 0 in
  let weight i := nth (Z.to_nat i) (nth (Z.to_nat j) fb []) 0%Q in
  control_bins n_filters n_fft fs minfreq top = Ok fbin ->
  Forall (fun b => 0 <= b <= ncols) fbin ->
  get_filterbanks n_filters n_fft fs minfreq maxfreq = Ok fb ->
  0 <= j < n_filters ->
  b0 < b1 < b2 ->
  Z.of_nat (length (nth (Z.to_nat j) fb [])) = ncols /\
  (forall i, 0 <= i < ncols -> i <= b0 \/ b2 <= i -> (weight i == 0)%Q) /\
  (forall i, b0 <= i <= b1 ->
     (weight i == inject_Z (i - b0) / inject_Z (b1 - b0))%Q) /\
  (forall i, b1 <= i <= b2 -> i < ncols ->
     (weight i == inject_Z (b2 - i) / inject_Z (b2 - b1))%Q) /\
  (weight b0 == 0)%Q /\ (weight b1 == 1)%Q /\
  (forall i, 0 <= i < ncols -> (0 <= weight i <= 1)%Q) /\
  (forall i i', b0 <= i <= i' -> i' <= b1 -> (weight i <= weight i')%Q) /\
  (forall i i', b1 <= i <= i' -> i' <= b2 -> i' < ncols -> (weight i' <= weight i)%Q).
Proof.
  intros top ncols b0 b1 b2 weight Hbins Hrange Hrun Hj Hb.
  destruct (get_filterbanks_ok_inv _ _ _ _ _ _ Hrun) as [Hassert Hn].
  fold top in Hassert.
  rewrite (get_filterbanks_eq n_filters n_fft fs minfreq maxfreq fbin) in Hrun
    by assumption.
  injection Hrun as <-. fold ncols in weight |- *.
  pose proof (control_bins_length _ _ _ _ _ _ Hn Hbins) as Hlen.
  assert (Hb2 : 0 <= b0 /\ b2 <= ncols).
  { rewrite Forall_forall in Hrange. split.
    - apply (Hrange b0). apply nth_In. lia.
    - apply (Hrange b2). apply nth_In. lia. }
  assert (Hrow : nth (Z.to_nat j) (map (filter_row fbin ncols) (py_range 0 n_filters)) []
                 = filter_row fbin ncols j).
  { rewrite (nth_map_lt _ _ _ 0) by (rewrite py_range_length; lia).
    rewrite py_range_nth by lia. f_equal. lia. }
  assert (Hw : forall i, 0 <= i < ncols -> weight i = triangle b0 b1 b2 i).
  { intros i Hi. unfold weight. rewrite Hrow. now apply filter_row_nth. }
  split. { rewrite Hrow, filter_row_length. lia. }
  split. { intros i Hi Hout. rewrite Hw by lia. apply triangle_outside; lia. }
  split. { intros i Hi. rewrite Hw by lia. apply triangle_rise; lia. }
  split. { intros i Hi Hc. rewrite Hw by lia. apply triangle_fall; lia. }
  split. { rewrite Hw by lia. apply triangle_outside; lia. }
  split. { rewrite Hw by lia. rewrite triangle_rise by lia. apply Qdiv_Z_same. lia. }
  split. { intros i Hi. rewrite Hw by lia. apply triangle_range. }
  split.
  - intros i i' Hi Hi'. rewrite !Hw by lia. rewrite !triangle_rise by lia.
    apply Qdiv_Z_le; lia.
  - intros i i' Hi Hi' Hc. rewrite !Hw by lia. rewrite !triangle_fall by lia.
    apply Qdiv_Z_le; lia.
Qed.

(** C7.  A [maxfreq] above half the sample rate fails the assertion of
    [get_filterbanks], whatever the other arguments are: nothing of the
    filterbank is computed. *)
Theorem get_filterbanks_nyquist (n_filters n_fft : Z) (fs minfreq maxfreq : Q) :
  (fs / 2 < maxfreq)%Q ->
  get_filterbanks n_filters n_fft fs minfreq (Some maxfreq) = Raise AssertionError.
Proof.
  intros H. unfold get_filterbanks.
  destruct (Qle_bool maxfreq (half_rate fs)) eqn:E; [|reflexivity].
  apply Qle_bool_imp_le in E. unfold half_rate in E.
  pose proof (Qfloor_le (fs / 2)) as Hfl.
  exfalso. apply (Qlt_irrefl maxfreq).
  eapply Qle_lt_trans; [exact E|]. eapply Qle_lt_trans; [exact Hfl | exact H].
Qed.

(** The case [maxfreq = fs] of a positive sample rate. *)
Lemma get_filterbanks_maxfreq_is_rate (n_filters n_fft : Z) (fs minfreq : Q) :
  (0 < fs)%Q ->
  get_filterbanks n_filters n_fft fs minfreq (Some fs) = Raise AssertionError.
Proof.
  intros H. apply get_filterbanks_nyquist.
  apply Qlt_shift_div_r; [reflexivity | lra].
Qed.

(** C8 (amended).  Coincident control bins raise nothing: a loop over an
    empty bin range does not run, so no quotient with a zero divisor is
    formed, and [get_filterbanks] returns the filterbank.  In the row of a
    filter with [b1 = b0] the rising side is missing, with [b2 = b1] the
    falling side is missing, and with all three equal the row is zero. *)
Theorem get_filterbanks_degenerate (n_filters n_fft : Z) (fs minfreq : Q)
  (maxfreq : option Q) (fbin : list Z) :
  let top := match maxfreq with None => half_rate fs | Some f => f end in
  let ncols := n_fft / 2 + 1 in
  0 <= n_filters ->
  (top <= half_rate fs)%Q ->
  control_bins n_filters n_fft fs minfreq top = Ok fbin ->
  Forall (fun b => 0 <= b <= ncols) fbin ->
  exists fb,
    get_filterbanks n_filters n_fft fs minfreq maxfreq = Ok fb /\
    Z.of_nat (length fb) = n_filters /\
    forall j, 0 <= j < n_filters ->
      let b0 := nth (Z.to_nat j) fbin 0 in
      let b1 := nth (Z.to_nat (j + 1)) fbin 0 in
      let b2 := nth (Z.to_nat (j + 2)) fbin 0 in
      let weight i := nth (Z.to_nat i) (nth (Z.to_nat j) fb []) 0%Q in
      Z.of_nat (length (nth (Z.to_nat j) fb [])) = ncols /\
      (b1 = b0 -> forall i, 0 <= i < ncols ->
         weight i = if (b1 <=? i) && (i <? b2)
                    then (inject_Z (b2 - i) / inject_Z (b2 - b1))%Q else 0%Q) /\
      (b2 = b1 -> forall i, 0 <= i < ncols ->
         weight i = if (b0 <=? i) && (i <? b1)
                    then (inject_Z (i - b0) / inject_Z (b1 - b0))%Q else 0%Q) /\
      (b1 = b0 -> b2 = b1 -> forall i, 0 <= i < ncols -> weight i = 0%Q).
Proof.
  intros top ncols Hn Hassert Hbins Hrange.
  apply Qle_bool_iff in Hassert.
  exists (map (filter_row fbin ncols) (py_range 0 n_filters)).
  split; [now apply get_filterbanks_eq|].
  split; [rewrite length_map, py_range_length; lia|].
  intros j Hj b0 b1 b2 weight.
  assert (Hrow : nth (Z.to_nat j) (map (filter_row fbin ncols) (py_range 0 n_filters)) []
                 = filter_row fbin ncols j).
  { rewrite (nth_map_lt _ _ _ 0) by (rewrite py_range_length; lia).
    rewrite py_range_nth by lia. f_equal. lia. }
  assert (Hc : 0 <= ncols).
  { pose proof (control_bins_length _ _ _ _ _ _ Hn Hbins) as Hlen.
    destruct fbin as [|b fbin]; [simpl in Hlen; lia|].
    inversion Hrange; subst. lia. }
  assert (Hw : forall i, 0 <= i < ncols -> weight i = triangle b0 b1 b2 i).
  { intros i Hi. unfold weight. rewrite Hrow. now apply filter_row_nth. }
  split. { rewrite Hrow, filter_row_length. lia. }
  split; [|split].
  - intros E i Hi. rewrite Hw by lia. unfold triangle. rewrite E.
    destruct (Z.leb_spec b0 i), (Z.ltb_spec i b0); simpl; try reflexivity. lia.
  - intros E i Hi. rewrite Hw by lia. unfold triangle. rewrite E.
    destruct ((b0 <=? i) && (i <? b1)); [reflexivity|].
    destruct (Z.leb_spec b1 i), (Z.ltb_spec i b1); simpl; try reflexivity. lia.
  - intros E1 E2 i Hi. rewrite Hw by lia. unfold triangle. rewrite E2, E1.
    destruct (Z.leb_spec b0 i), (Z.ltb_spec i b0); simpl; try reflexivity; lia.
Qed.

End FilterbankClaims.

Lemma get_filterbanks_triangular_witness :
  exists fb,
    @get_filterbanks toy_libm 2 8 16 0 None = Ok fb /\
    (nth 1 (nth 0 fb []) 0 == 1)%Q.
Proof.
  assert (H : exists fb, @get_filterbanks toy_libm 2 8 16 0 None = Ok fb)
    by (vm_compute; eexists; reflexivity).
  destruct H as [fb Hfb]. exists fb. split; [exact Hfb|].
  apply (@get_filterbanks_triangular toy_libm 2 8 16 0 None [0; 1; 3; 4] fb 0).
  - reflexivity.
  - repeat constructor; discriminate.
  - exact Hfb.
  - lia.
  - simpl. lia.
Defined.

(** C6 as stated fails: with [minfreq = -4] the control bins of the one
    filter of [get_filterbanks(1, 8, 16, -4)] are -3, 1 and 4.  They
    increase strictly and the call is accepted, but the stores at the bins
    -3, -2 and -1 go through negative indices to the columns 2, 3 and 4.
    The row is [3/4, 1, 2/3, 1/3, 1/2]: at bin [b2 = 4], where a triangle is
    back to 0, the weight is 1/2. *)
Lemma get_filterbanks_triangular_counterexample :
  @control_bins toy_libm 1 8 16 (-4) (half_rate 16) = Ok [-3; 1; 4] /\
  exists row : vec,
    @get_filterbanks toy_libm 1 8 16 (-4) None = Ok [row] /\
    length row = 5%nat /\
    (nth 0 row 0 == 3 # 4)%Q /\ (nth 1 row 0 == 1)%Q /\
    (nth 2 row 0 == 2 # 3)%Q /\ (nth 3 row 0 == 1 # 3)%Q /\
    (nth 4 row 0 == 1 # 2)%Q /\
    ~ (nth 4 row 0 == 0)%Q.
Proof.
  split; [reflexivity|].
  eexists. split; [vm_compute; reflexivity|].
  split; [reflexivity|].
  repeat (split; [reflexivity|]).
  intros H. vm_compute in H. discriminate.
Qed.

Lemma get_filterbanks_nyquist_witness :
  @get_filterbanks toy_libm 26 512 16000 0 (Some 16000%Q) = Raise AssertionError.
Proof.
  apply get_filterbanks_nyquist. reflexivity.
Defined.

Lemma get_filterbanks_degenerate_witness :
  exists fb, @get_filterbanks toy_libm 3 2 16 0 None = Ok fb /\
             Z.of_nat (length fb) = 3.
Proof.
  destruct (@get_filterbanks_degenerate toy_libm 3 2 16 0 None [0; 0; 0; 1; 1])
    as (fb & Hfb & Hlen & _).
  - lia.
  - discriminate.
  - reflexivity.
  - repeat constructor; discriminate.
  - exists fb. split; [exact Hfb | exact Hlen].
Defined.

(** C8 as stated fails: three filters on a two-point FFT have the control
    bins [0, 0, 0, 1, 1], every filter has two coincident bins, and
    [get_filterbanks] returns a matrix. *)
Lemma get_filterbanks_degenerate_counterexample :
  @control_bins toy_libm 3 2 16 0 8 = Ok [0; 0; 0; 1; 1] /\
  @get_filterbanks toy_libm 3 2 16 0 None = Ok [[0; 0]; [1; 0]; [0; 0]]%Q.
Proof.
  split; vm_compute; reflexivity.
Qed.

(** ** Spectra and filterbank energies *)

Lemma foldM_invariant {A S : Type} (P : S -> Prop) (body : A -> S -> result S)
  (l : list A) (s s' : S) :
  (forall x t t', body x t = Ok t' -> P t -> P t') ->
  foldM body l s = Ok s' -> P s -> P s'.
Proof.
  intros Hstep. revert s. induction l as [|x l IH]; intros s Hrun Hs; simpl in Hrun.
  - now injection Hrun as <-.
  - apply bind_ok_inv in Hrun as (t & Ht & Hrun).
    apply (IH t Hrun). eapply Hstep; eauto.
Qed.




Section PipelineFacts.
Context {libm : Libm} {utils : Utils}.

Lemma preemphasis_ok (signal : vec) (coeff : Q) :
  signal <> [] ->
  exists out, preemphasis signal coeff = Ok out /\ length out = length signal.
Proof.
  intros Hne. destruct signal as [|x l]; [contradiction|].
  unfold preemphasis.
  rewrite (getitem_nonneg _ 0 0%Q) by (simpl; lia). cbn [bind].
  rewrite broadcast_same.
  - eexists. split; [reflexivity|]. cbn [length]. f_equal.
    rewrite map2_length; [reflexivity|].
    rewrite length_map, removelast_firstn_len, length_firstn. simpl. lia.
  - rewrite length_map, removelast_firstn_len, length_firstn. simpl. lia.
Qed.

Lemma magspec_eq (frames : mat) (n : Z) :
  1 <= n ->
  magspec frames n
  = Ok (map (fun x => map (fun k => np_absolute (dft_bin (fit_length x (Z.to_nat n)) n k))
                          (np_arange (n / 2 + 1))) frames).
Proof.
  intros Hn. unfold magspec, np_fft_rfft.
  replace (n <? 1) with false by (symmetry; apply Z.ltb_ge; lia).
  simpl. rewrite map_map. f_equal. apply map_ext. intros x. now rewrite map_map.
Qed.

Lemma powspec_eq (frames : mat) (n : Z) :
  1 <= n -> powspec frames n = Ok (map (power_row n) frames).
Proof.
  intros Hn. unfold powspec.
  replace (n =? 0) with false by (symmetry; apply Z.eqb_neq; lia).
  cbn [bind]. rewrite magspec_eq by exact Hn. cbn [bind].
  rewrite map_map. f_equal. apply map_ext. intros x.
  unfold power_row. now rewrite map_map.
Qed.

Lemma power_row_length (n : Z) (x : vec) :
  0 <= n -> Z.of_nat (length (power_row n x)) = n / 2 + 1.
Proof.
  intros Hn. unfold power_row. rewrite length_map, np_arange_length.
  assert (0 <= n / 2) by (apply Z.div_pos; lia). lia.
Qed.


Lemma np_dot_T_ok (a b : mat) (c : Z) :
  has_width c a -> has_width c b ->
  np_dot_T a b = Ok (map (fun r => map (fun f => Qsum (map2 Qmult r f)) b) a).
Proof.
  intros Ha Hb. unfold np_dot_T. apply mapM_ok_map. intros r Hr.
  apply mapM_ok_map. intros f Hf.
  unfold has_width in *. rewrite Forall_forall in Ha, Hb.
  specialize (Ha r Hr). specialize (Hb f Hf).
  replace (length r =? length f)%nat with true; [reflexivity|].
  symmetry. apply Nat.eqb_eq. lia.
Qed.

Lemma setitem2_shape (a a' : mat) (j i : Z) (v : Q) (n : nat) (c : Z) :
  setitem2 a j i v = Ok a' ->
  length a = n /\ has_width c a -> length a' = n /\ has_width c a'.
Proof.
  unfold setitem2, getitem, setitem. intros H [Hlen Hw].
  apply bind_ok_inv in H as (row & Hrow & H).
  apply bind_ok_inv in Hrow as (k & Hk & Hrow).
  destruct (nth_error a k) as [r|] eqn:E; [|discriminate].
  injection Hrow as <-.
  apply bind_ok_inv in H as (row' & Hrow' & H).
  apply bind_ok_inv in Hrow' as (k' & Hk' & Hrow').
  injection Hrow' as <-.
  apply bind_ok_inv in H as (k2 & Hk2 & H).
  injection H as <-.
  split; [now rewrite list_set_length|].
  unfold has_width in *. apply Forall_nth_lt with (d := []).
  intros q Hq. rewrite list_set_length in Hq.
  apply py_index_inv in Hk2 as [Hr2 ->].
  rewrite list_set_nth by (unfold position; destruct (Z.ltb_spec j 0); lia).
  rewrite Forall_forall in Hw.
  destruct (Nat.eqb_spec q (position (length a) j)).
  - rewrite list_set_length. apply Hw. eapply nth_error_In; eauto.
  - apply Hw. now apply nth_In.
Qed.

Lemma fill_filter_shape (fbin : list Z) (j : Z) (t t' : mat) (n : nat) (c : Z) :
  fill_filter fbin j t = Ok t' ->
  length t = n /\ has_width c t -> length t' = n /\ has_width c t'.
Proof.
  intros Hstep Ht. unfold fill_filter in Hstep.
  apply bind_ok_inv in Hstep as (b0 & _ & Hstep).
  apply bind_ok_inv in Hstep as (b1 & _ & Hstep).
  apply bind_ok_inv in Hstep as (t1 & Ht1 & Hstep).
  apply bind_ok_inv in Hstep as (b2 & _ & Hstep).
  assert (Hmid : length t1 = n /\ has_width c t1).
  { apply (foldM_invariant (fun m : mat => length m = n /\ has_width c m)
             _ _ _ _ (fun i m m' Hset Hm => setitem2_shape _ _ _ _ _ _ _ Hset Hm)
             Ht1 Ht). }
  apply (foldM_invariant (fun m : mat => length m = n /\ has_width c m)
           _ _ _ _ (fun i m m' Hset Hm => setitem2_shape _ _ _ _ _ _ _ Hset Hm)
           Hstep Hmid).
Qed.

Lemma get_filterbanks_shape (n_filters n_fft : Z) (fs minfreq : Q)
  (maxfreq : option Q) (fb : mat) :
  get_filterbanks n_filters n_fft fs minfreq maxfreq = Ok fb ->
  Z.of_nat (length fb) = n_filters /\ has_width (n_fft / 2 + 1) fb.
Proof.
  intros H. unfold get_filterbanks in H.
  apply bind_ok_inv in H as (? & _ & H).
  apply bind_ok_inv in H as (fbin & _ & H).
  apply bind_ok_inv in H as (zeros & Hz & H).
  unfold np_zeros2 in Hz.
  destruct (Z.ltb_spec n_filters 0); [discriminate|].
  destruct (Z.ltb_spec (n_fft / 2 + 1) 0); [discriminate|].
  simpl in Hz. injection Hz as <-.
  assert (Hgoal : length fb = Z.to_nat n_filters /\ has_width (n_fft / 2 + 1) fb).
  { apply (foldM_invariant
             (fun m : mat => length m = Z.to_nat n_filters /\ has_width (n_fft / 2 + 1) m)
             _ _ _ _ (fun j t t' Hs Ht => fill_filter_shape fbin j t t' _ _ Hs Ht) H).
    rewrite repeat_length. split; [reflexivity|].
    apply Forall_forall. intros row Hrow. apply repeat_spec in Hrow. subst row.
    rewrite repeat_length. lia. }
  destruct Hgoal as [Hl Hw]. split; [lia | exact Hw].
Qed.

End PipelineFacts.

(** ** The pipeline on valid arguments *)

Section PipelineRuns.
Context {libm : Libm} {utils : Utils}.

Lemma rect_window_ok (n : Z) :
  0 <= n -> rect_window n = Ok (repeat 1%Q (Z.to_nat n)).
Proof.
  intros H. unfold rect_window, np_ones.
  now replace (n <? 0) with false by (symmetry; apply Z.ltb_ge; lia).
Qed.

Lemma filter_rows_nonneg (fbin : list Z) (ncols n : Z) :
  Forall (Forall (fun x => (0 <= x)%Q)) (map (filter_row fbin ncols) (py_range 0 n)).
Proof.
  apply Forall_forall. intros row Hrow. apply in_map_iff in Hrow as (j & <- & _).
  apply Forall_forall. intros x Hx. unfold filter_row in Hx.
  apply in_map_iff in Hx as (i & <- & _). apply triangle_range.
Qed.

(** [fbank] on valid arguments, with its intermediate arrays. *)
Lemma fbank_eq (audio : vec) (fs window_dt dt : Q) (n_filters n_fft : Z)
  (minfreq : Q) (maxfreq : option Q) (preemph : Q) :
  valid_config audio fs window_dt dt n_filters n_fft minfreq maxfreq ->
  exists (emph : vec) (frames fb : mat) (numframes : Z),
    preemphasis audio preemph = Ok emph /\
    length emph = length audio /\
    framesig emph (b64_mul window_dt fs) (b64_mul dt fs) rect_window = Ok frames /\
    framesig_numframes (Z.of_nat (length audio)) (py_round (b64_mul window_dt fs))
                       (py_round (b64_mul dt fs)) = Ok numframes /\
    1 <= numframes /\ Z.of_nat (length frames) = numframes /\
    powspec frames n_fft = Ok (map (power_row n_fft) frames) /\
    get_filterbanks n_filters n_fft fs minfreq maxfreq = Ok fb /\
    Z.of_nat (length fb) = n_filters /\
    has_width (n_fft / 2 + 1) fb /\
    Forall (Forall (fun x => (0 <= x)%Q)) fb /\
    fbank audio fs window_dt dt n_filters n_fft minfreq maxfreq preemph
    = Ok (energies_of (map (power_row n_fft) frames) fb).
Proof.
  intros (Hne & Hl & Hs & Hfft & Hnf & Htop & fbin & Hbins & Hrange).
  destruct (preemphasis_ok audio preemph Hne) as (emph & Hemph & Hlemph).
  destruct (framesig_eq emph (b64_mul window_dt fs) (b64_mul dt fs) rect_window
              (repeat 1%Q (Z.to_nat (py_round (b64_mul window_dt fs)))))
    as (n & Hn & Hn1 & _ & Hframes); try assumption.
  { apply rect_window_ok. lia. }
  { apply repeat_length. }
  rewrite Hlemph in Hn.
  set (frames := frames_of _ _ _ _ n) in Hframes.
  assert (Hlf : Z.of_nat (length frames) = n).
  { unfold frames, frames_of. rewrite length_map, index_rows_length. lia. }
  set (top := match maxfreq with None => half_rate fs | Some f => f end) in *.
  set (fb := map (filter_row fbin (n_fft / 2 + 1)) (py_range 0 n_filters)).
  assert (Hassert : Qle_bool top (half_rate fs) = true) by now apply Qle_bool_iff.
  assert (Hfb : get_filterbanks n_filters n_fft fs minfreq maxfreq = Ok fb)
    by now apply get_filterbanks_eq.
  assert (Hfb' : get_filterbanks n_filters n_fft fs minfreq (Some top) = Ok fb)
    by now apply get_filterbanks_eq.
  destruct (get_filterbanks_shape _ _ _ _ _ _ Hfb) as [Hlfb Hwfb].
  exists emph, frames, fb, n.
  repeat (split; [first [assumption | now apply powspec_eq
                         | apply filter_rows_nonneg] |]).
  unfold fbank. fold top. rewrite Hemph. cbn [bind].
  rewrite Hframes. cbn [bind]. rewrite powspec_eq by exact Hfft. cbn [bind].
  rewrite Hfb'. cbn [bind].
  rewrite (np_dot_T_ok _ fb (n_fft / 2 + 1)); [reflexivity| |exact Hwfb].
  apply Forall_forall. intros row Hrow. apply in_map_iff in Hrow as (x & <- & _).
  apply power_row_length. lia.
Qed.

End PipelineRuns.

Section SpectrumClaims.
Context {libm : Libm} {utils : Utils}.


(** C10.  For an FFT of [n_fft >= 1] points [magspec] and [powspec] return
    one row per frame with [n_fft / 2 + 1] columns (fewer than [n_fft] from
    three points on), which is the width of every filterbank that
    [get_filterbanks] returns for that [n_fft]; so the product of the power
    spectrum with the transposed filterbank is defined and has one column
    per filter. *)
Theorem spectrum_columns (frames : mat) (n_fft : Z) :
  1 <= n_fft ->
  exists mag pspec : mat,
    magspec frames n_fft = Ok mag /\
    powspec frames n_fft = Ok pspec /\
    length mag = length frames /\
    length pspec = length frames /\
    has_width (n_fft / 2 + 1) mag /\
    has_width (n_fft / 2 + 1) pspec /\
    (3 <= n_fft -> n_fft / 2 + 1 < n_fft) /\
    forall (n_filters : Z) (fs minfreq : Q) (maxfreq : option Q) (fb : mat),
      get_filterbanks n_filters n_fft fs minfreq maxfreq = Ok fb ->
      has_width (n_fft / 2 + 1) fb /\
      exists feat : mat,
        np_dot_T pspec fb = Ok feat /\
        length feat = length frames /\
        has_width n_filters feat.
Proof.
  intros Hn.
  assert (Hhalf : 0 <= n_fft / 2) by (apply Z.div_pos; lia).
  eexists. eexists.
  split; [now apply magspec_eq|]. split; [now apply powspec_eq|].
  split; [now rewrite length_map|]. split; [now rewrite length_map|].
  assert (Hwp : has_width (n_fft / 2 + 1) (map (power_row n_fft) frames)).
  { apply Forall_forall. intros row Hrow. apply in_map_iff in Hrow as (x & <- & _).
    apply power_row_length. lia. }
  split.
  { apply Forall_forall. intros row Hrow. apply in_map_iff in Hrow as (x & <- & _).
    rewrite length_map, np_arange_length. lia. }
  split; [exact Hwp|]. split.
  { intros H3. pose proof (Z.div_lt_upper_bound n_fft 2 (n_fft - 1)). lia. }
  intros n_filters fs minfreq maxfreq fb Hfb.
  destruct (get_filterbanks_shape _ _ _ _ _ _ Hfb) as [Hlfb Hwfb].
  split; [exact Hwfb|].
  eexists. split; [apply (np_dot_T_ok _ _ (n_fft / 2 + 1)); assumption|].
  split; [now rewrite !length_map|].
  apply Forall_forall. intros row Hrow. apply in_map_iff in Hrow as (r & <- & _).
  rewrite length_map. exact Hlfb.
Qed.

End SpectrumClaims.



Lemma spectrum_columns_witness :
  exists pspec : mat,
    @powspec toy_libm [[1; 2; 3]; [4; 5; 6]]%Q 4 = Ok pspec /\
    has_width 3 pspec.
Proof.
  destruct (@spectrum_columns toy_libm [[1; 2; 3]; [4; 5; 6]]%Q 4)
    as (mag & pspec & _ & Hp & _ & _ & _ & Hw & _).
  - lia.
  - exists pspec. split; [exact Hp | exact Hw].
Defined.

(** ** Cepstra *)

Lemma py_slice_to_length {A : Type} (row : list A) (n : Z) :
  Z.of_nat (length (py_slice_to row n)) = cepstra_width n (Z.of_nat (length row)).
Proof.
  unfold py_slice_to, cepstra_width.
  destruct (Z.leb_spec 0 n); rewrite length_firstn; lia.
Qed.

Lemma has_width_nth {A : Type} (w : Z) (a : list (list A)) (i : nat) :
  has_width w a -> (i < length a)%nat -> Z.of_nat (length (nth i a [])) = w.
Proof.
  intros Hw Hi. unfold has_width in Hw. rewrite Forall_forall in Hw.
  apply Hw. now apply nth_In.
Qed.

Lemma set_column0_ok (feat : mat) (col : vec) (w : Z) :
  length feat = length col -> has_width w feat -> 1 <= w ->
  exists feat',
    set_column0 feat col = Ok feat' /\
    length feat' = length feat /\
    has_width w feat' /\
    forall i, (i < length feat)%nat -> nth 0 (nth i feat' []) 0%Q = nth i col 0%Q.
Proof.
  intros Hlen Hw Hw1. unfold set_column0.
  replace (length feat =? length col)%nat with true
    by (symmetry; apply Nat.eqb_eq; exact Hlen).
  exists (map (fun p => list_set (fst p) 0 (snd p)) (combine feat col)).
  assert (Hrow : forall p, In p (combine feat col) ->
                           Z.of_nat (length (fst p)) = w).
  { intros [row v] Hp. apply in_combine_l in Hp. simpl.
    unfold has_width in Hw. rewrite Forall_forall in Hw. now apply Hw. }
  split.
  { apply mapM_ok_map. intros p Hp. specialize (Hrow p Hp).
    rewrite setitem_ok by lia. reflexivity. }
  split. { rewrite length_map, length_combine. lia. }
  split.
  { apply Forall_forall. intros row Hin. apply in_map_iff in Hin as (p & <- & Hp).
    rewrite list_set_length. now apply Hrow. }
  intros i Hi.
  rewrite (nth_map_lt _ _ _ ([], 0%Q)) by (rewrite length_combine; lia).
  rewrite combine_nth by exact Hlen. simpl.
  rewrite list_set_nth; [reflexivity|].
  pose proof (has_width_nth w feat i Hw Hi). lia.
Qed.

Lemma np_hstack_spec (n : nat) (w : Z) (blocks : list mat) (b0 : mat) :
  0 <= w ->
  Forall (fun b : mat => length b = n /\ has_width w b) (b0 :: blocks) ->
  exists M,
    np_hstack (b0 :: blocks) = Ok M /\
    length M = n /\
    has_width (w * (1 + Z.of_nat (length blocks))) M /\
    forall i, (i < n)%nat -> exists rest, nth i M [] = nth i b0 [] ++ rest.
Proof.
  intros Hw0. revert b0. induction blocks as [|b1 bs IH]; intros b0 Hall.
  - inversion Hall as [|? ? [Hl Hw] _]; subst.
    exists b0. split; [reflexivity|]. split; [reflexivity|]. split.
    + simpl. now rewrite Z.mul_1_r.
    + intros i Hi. exists []. now rewrite app_nil_r.
  - inversion Hall as [|? ? [Hl Hw] Hrest]; subst.
    destruct (IH b1 Hrest) as (R & HR & HlR & HwR & _).
    change (np_hstack (b0 :: b1 :: bs))
      with (rest <- np_hstack (b1 :: bs) ;;
            if Nat.eqb (length b0) (length rest) then Ok (map2 (@app Q) b0 rest)
            else Raise ValueError).
    rewrite HR. cbn [bind]. rewrite HlR, Nat.eqb_refl.
    exists (map2 (@app Q) b0 R).
    split; [reflexivity|]. split; [now rewrite map2_length|]. split.
    + unfold has_width. apply Forall_nth_lt with (d := []).
      intros i Hi. rewrite map2_length in Hi by lia.
      rewrite (map2_nth _ _ _ _ [] [] []) by lia.
      rewrite length_app.
      pose proof (has_width_nth w b0 i Hw Hi).
      pose proof (has_width_nth _ R i HwR ltac:(lia)).
      cbn [length]. lia.
    + intros i Hi. exists (nth i R []).
      apply (map2_nth _ _ _ _ [] [] []); lia.
Qed.

Section Cepstra.
Context {libm : Libm} {utils : Utils}.

Lemma dct_coefficients_length (x : vec) : length (dct_coefficients x) = length x.
Proof.
  unfold dct_coefficients. rewrite length_map, np_arange_length. lia.
Qed.

Lemma lifter_shape (cepstra : mat) (L : pynum) (w : Z) :
  has_width w cepstra ->
  exists c', lifter cepstra L = Ok c' /\ length c' = length cepstra /\ has_width w c'.
Proof.
  intros Hw. unfold lifter. destruct (Qle_bool (py_value L) 0).
  - exists cepstra. auto.
  - set (lift := map _ (np_arange (shape1 cepstra))).
    exists (map (map2 Qmult lift) cepstra).
    assert (Hlift : forall row, In row cepstra -> length lift = length row).
    { intros row Hrow. unfold lift. rewrite length_map, np_arange_length.
      unfold has_width in Hw. rewrite Forall_forall in Hw.
      destruct cepstra as [|r0 c]; [contradiction|]. simpl.
      rewrite Nat2Z.id. pose proof (Hw r0 (or_introl eq_refl)).
      pose proof (Hw row Hrow). lia. }
    split; [|split].
    + apply mapM_ok_map. intros row Hrow. apply broadcast_same. now apply Hlift.
    + now rewrite length_map.
    + apply Forall_forall. intros r Hr. apply in_map_iff in Hr as (row & <- & Hrow).
      rewrite map2_length by now apply Hlift.
      rewrite (Hlift row Hrow).
      unfold has_width in Hw. rewrite Forall_forall in Hw. now apply Hw.
Qed.

Lemma derivs_from_shape (spread w : Z) (n : nat) (target : mat) :
  shape_preserving utils -> 1 <= spread ->
  has_width w target ->
  length (derivs_from target spread n) = n /\
  Forall (fun b : mat => length b = length target /\ has_width w b)
         (derivs_from target spread n).
Proof.
  intros Hsp Hs. revert target. induction n as [|n IH]; intros target Hw; simpl.
  - split; [reflexivity | constructor].
  - destruct (Hsp target spread w Hs) as [Hl Hw'].
    destruct (IH (derivative target spread) (Hw' Hw)) as [Hlen Hall].
    split; [now rewrite Hlen|].
    constructor; [split; [exact Hl | now apply Hw']|].
    rewrite Hl in Hall. exact Hall.
Qed.

End Cepstra.

Section MfccRuns.
Context {libm : Libm} {utils : Utils}.

(** [mfcc] on valid arguments: it returns one row per frame, as wide as the
    kept cepstra times the number of blocks, and with the energy flag its
    first column holds the logarithms of the frame energies. *)
Lemma mfcc_run (audio : vec) (fs window_dt dt : Q) (n_cepstra n_filters n_fft : Z)
  (minfreq : Q) (maxfreq : option Q) (preemph : Q) (lift : pynum) (energy : bool)
  (n_derivatives deriv_spread : Z) :
  valid_config audio fs window_dt dt n_filters n_fft minfreq maxfreq ->
  1 <= n_filters ->
  shape_preserving utils ->
  (1 <= n_derivatives -> 1 <= deriv_spread) ->
  (energy = true -> 1 <= cepstra_width n_cepstra n_filters) ->
  exists (emph : vec) (frames feat : mat) (energy_ : vec) (M : mat) (numframes : Z),
    preemphasis audio preemph = Ok emph /\
    framesig emph (b64_mul window_dt fs) (b64_mul dt fs) rect_window = Ok frames /\
    powspec frames n_fft = Ok (map (power_row n_fft) frames) /\
    energy_ = map floor_eps (map Qsum (map (power_row n_fft) frames)) /\
    fbank audio fs window_dt dt n_filters n_fft minfreq maxfreq preemph
    = Ok (feat, energy_) /\
    framesig_numframes (Z.of_nat (length audio)) (py_round (b64_mul window_dt fs))
                       (py_round (b64_mul dt fs)) = Ok numframes /\
    mfcc audio fs window_dt dt n_cepstra n_filters n_fft minfreq maxfreq
         preemph lift energy n_derivatives deriv_spread = Ok M /\
    Z.of_nat (length M) = numframes /\
    length energy_ = length M /\
    has_width (cepstra_width n_cepstra n_filters * (1 + Z.max 0 n_derivatives)) M /\
    (energy = true ->
     forall i, (i < length M)%nat ->
       nth 0 (nth i M []) 0%Q = m_log (nth i energy_ 0%Q)).
Proof.
  intros Hvalid Hnf Hsp Hspread Henergy.
  destruct (fbank_eq audio fs window_dt dt n_filters n_fft minfreq maxfreq
              preemph Hvalid)
    as (emph & frames & fb & n & Hemph & _ & Hframes & Hn & Hn1 & Hlf & Hps
        & _ & Hlfb & _ & _ & Hrun).
  set (pspec := map (power_row n_fft) frames) in *.
  unfold energies_of in Hrun.
  set (feat0 := map (map floor_eps) _) in Hrun.
  set (energy_ := map floor_eps (map Qsum pspec)) in *.
  assert (Hlfeat0 : length feat0 = length frames)
    by (unfold feat0, pspec; now rewrite !length_map).
  assert (Hwfeat0 : has_width n_filters feat0).
  { apply Forall_forall. intros row Hrow. unfold feat0 in Hrow.
    apply in_map_iff in Hrow as (r & <- & Hr).
    apply in_map_iff in Hr as (x & <- & _). now rewrite !length_map. }
  set (w := cepstra_width n_cepstra n_filters) in *.
  assert (Hw0 : 0 <= w)
    by (unfold w, cepstra_width; destruct (Z.leb_spec 0 n_cepstra); lia).
  (* the cepstra before liftering *)
  set (cut := map (fun row => py_slice_to row n_cepstra)
                  (map dct_coefficients (map (map m_log) feat0))).
  assert (Hdct : mapM dct_row (map (map m_log) feat0)
                 = Ok (map dct_coefficients (map (map m_log) feat0))).
  { apply mapM_ok_map. intros row Hrow. apply in_map_iff in Hrow as (r & <- & Hr).
    unfold dct_row. rewrite length_map.
    unfold has_width in Hwfeat0. rewrite Forall_forall in Hwfeat0.
    rewrite (Hwfeat0 r Hr).
    now replace (n_filters =? 0) with false by (symmetry; apply Z.eqb_neq; lia). }
  assert (Hlcut : length cut = length frames)
    by (unfold cut; now rewrite !length_map).
  assert (Hwcut : has_width w cut).
  { apply Forall_forall. intros row Hrow. unfold cut in Hrow.
    apply in_map_iff in Hrow as (r & <- & Hr).
    apply in_map_iff in Hr as (r' & <- & Hr').
    apply in_map_iff in Hr' as (r0 & <- & Hr0).
    rewrite py_slice_to_length, dct_coefficients_length, length_map.
    unfold has_width in Hwfeat0. rewrite Forall_forall in Hwfeat0.
    now rewrite (Hwfeat0 r0 Hr0). }
  destruct (lifter_shape cut lift w Hwcut) as (lifted & Hlift & Hllift & Hwlift).
  (* the energy column *)
  assert (Hcol : exists feat,
             (if energy then set_column0 lifted (map m_log energy_) else Ok lifted)
             = Ok feat /\
             length feat = length frames /\ has_width w feat /\
             (energy = true -> forall i, (i < length feat)%nat ->
                nth 0 (nth i feat []) 0%Q = m_log (nth i energy_ 0%Q))).
  { destruct energy.
    - destruct (set_column0_ok lifted (map m_log energy_) w)
        as (feat & Hset & Hlset & Hwset & Hcol0); auto.
      { unfold energy_, pspec. rewrite !length_map. lia. }
      exists feat. split; [exact Hset|]. split; [lia|]. split; [exact Hwset|].
      intros _ i Hi. rewrite Hcol0 by lia.
      apply (nth_map_lt m_log). unfold energy_, pspec. rewrite !length_map. lia.
    - exists lifted. split; [reflexivity|]. split; [lia|]. split; [exact Hwlift|].
      discriminate. }
  destruct Hcol as (feat & Hfeat & Hlfeat & Hwfeat & Hcol0).
  (* the derivative blocks *)
  set (nd := Z.to_nat n_derivatives).
  assert (Hder : length (derivs_from feat deriv_spread nd) = nd /\
                 Forall (fun b : mat => length b = length feat /\ has_width w b)
                        (derivs_from feat deriv_spread nd)).
  { destruct nd as [|k] eqn:E.
    - split; [reflexivity | constructor].
    - apply derivs_from_shape; auto. apply Hspread. lia. }
  destruct Hder as [Hlder Hallder].
  destruct (np_hstack_spec (length feat) w (derivs_from feat deriv_spread nd) feat Hw0)
    as (M & HM & HlM & HwM & Hrow0).
  { constructor; [split; [reflexivity | exact Hwfeat] | exact Hallder]. }
  exists emph, frames, feat0, energy_, M, n.
  split; [exact Hemph|]. split; [exact Hframes|]. split; [exact Hps|].
  split; [reflexivity|]. split; [exact Hrun|]. split; [exact Hn|].
  split.
  { unfold mfcc. rewrite Hrun. cbn [bind fst snd]. rewrite Hdct. cbn [bind].
    fold cut. rewrite Hlift. cbn [bind]. fold energy_. rewrite Hfeat. cbn [bind].
    exact HM. }
  split; [lia|]. split.
  { unfold energy_, pspec. rewrite !length_map. lia. }
  split.
  { rewrite Hlder in HwM. replace (1 + Z.max 0 n_derivatives)
      with (1 + Z.of_nat nd) by (unfold nd; lia). exact HwM. }
  intros He i Hi. destruct (Hrow0 i ltac:(lia)) as (rest & ->).
  rewrite app_nth1; [apply Hcol0; [exact He | lia]|].
  pose proof (has_width_nth w feat i Hwfeat ltac:(lia)).
  specialize (Henergy He). lia.
Qed.

End MfccRuns.

Lemma map2_length_min {A B C : Type} (f : A -> B -> C) (u : list A) (v : list B) :
  length (map2 f u v) = Nat.min (length u) (length v).
Proof.
  revert v; induction u as [|x u IH]; intros [|y v]; simpl; auto.
Qed.

Lemma toy_utils_shape_preserving : shape_preserving toy_utils.
Proof.
  intros x spread w _. simpl.
  set (next := tl x ++ [last x []]).
  assert (Hnext : x <> [] -> length next = length x).
  { intros Hne. unfold next. rewrite length_app. destruct x; [contradiction|].
    simpl. lia. }
  split.
  - rewrite map2_length_min. destruct x as [|r x]; [reflexivity|].
    rewrite Hnext by discriminate. apply Nat.min_id.
  - intros Hw. destruct x as [|r x]; [constructor|].
    assert (Hwn : has_width w next).
    { unfold next. apply Forall_app. unfold has_width in Hw. split.
      - inversion Hw; subst. assumption.
      - constructor; [|constructor]. rewrite Forall_forall in Hw. apply Hw.
        destruct (exists_last (l := r :: x) ltac:(discriminate)) as (l' & a & E).
        rewrite E, last_last. apply in_or_app. right. now left. }
    specialize (Hnext ltac:(discriminate)).
    apply Forall_nth_lt with (d := []). intros i Hi.
    rewrite map2_length_min, Hnext, Nat.min_id in Hi.
    rewrite (map2_nth _ _ _ _ [] [] []) by (rewrite ?Hnext; lia).
    rewrite map2_length_min.
    pose proof (has_width_nth w next i Hwn ltac:(rewrite Hnext; lia)).
    pose proof (has_width_nth w (r :: x) i Hw Hi). lia.
Qed.

Section MfccClaims.
Context {libm : Libm} {utils : Utils}.

(** C2.  On valid arguments, with [0 <= n_cepstra <= n_filters] and a
    derivative that keeps the shape of its argument, [mfcc] returns one row
    per frame and [n_cepstra * (1 + n_derivatives)] columns. *)
Theorem mfcc_feature_width (audio : vec) (fs window_dt dt : Q)
  (n_cepstra n_filters n_fft : Z) (minfreq : Q) (maxfreq : option Q)
  (preemph : Q) (lift : pynum) (energy : bool) (n_derivatives deriv_spread : Z) :
  let slen := Z.of_nat (length audio) in
  let frame_len := py_round (b64_mul window_dt fs) in
  let frame_step := py_round (b64_mul dt fs) in
  valid_config audio fs window_dt dt n_filters n_fft minfreq maxfreq ->
  1 <= n_filters ->
  0 <= n_cepstra <= n_filters ->
  (energy = true -> 1 <= n_cepstra) ->
  0 <= n_derivatives ->
  (1 <= n_derivatives -> 1 <= deriv_spread) ->
  shape_preserving utils ->
  exists M,
    mfcc audio fs window_dt dt n_cepstra n_filters n_fft minfreq maxfreq
         preemph lift energy n_derivatives deriv_spread = Ok M /\
    Z.of_nat (length M)
    = (if slen <=? frame_len then 1
       else 1 + Qceiling (inject_Z (slen - frame_len) / inject_Z frame_step)) /\
    has_width (n_cepstra * (1 + n_derivatives)) M.
Proof.
  intros slen frame_len frame_step Hvalid Hnf Hnc Hen Hnd Hspread Hsp.
  assert (Hcw : cepstra_width n_cepstra n_filters = n_cepstra).
  { unfold cepstra_width. destruct (Z.leb_spec 0 n_cepstra); lia. }
  destruct (mfcc_run audio fs window_dt dt n_cepstra n_filters n_fft minfreq maxfreq
              preemph lift energy n_derivatives deriv_spread)
    as (emph & frames & feat & energy_ & M & n & _ & _ & _ & _ & _ & Hn & HM & HlM
        & _ & HwM & _); try assumption.
  { rewrite Hcw. exact Hen. }
  exists M. split; [exact HM|]. split.
  - rewrite HlM.
    destruct (framesig_numframes_ok slen frame_len frame_step)
      as (n' & Hn' & Hform & _).
    { destruct Hvalid as (_ & _ & Hs & _). exact Hs. }
    fold slen frame_len frame_step in Hn. rewrite Hn in Hn'. injection Hn' as <-.
    exact Hform.
  - rewrite Hcw in HwM. now replace (Z.max 0 n_derivatives) with n_derivatives in HwM by lia.
Qed.

(** C3.  With more cepstra requested than there are filters, [mfcc] does
    neither what the claim says nor what its docstring promises.  On
    otherwise valid arguments it raises nothing: the slice [[:, :n_cepstra]]
    keeps the [n_filters] coefficients of the cosine transform, and the
    feature matrix that comes back has rows of
    [n_filters * (1 + n_derivatives)] columns, not of the
    [n_cepstra * (1 + n_derivatives)] columns of the docstring. *)
Theorem mfcc_too_many_cepstra (audio : vec) (fs window_dt dt : Q)
  (n_cepstra n_filters n_fft : Z) (minfreq : Q) (maxfreq : option Q)
  (preemph : Q) (lift : pynum) (energy : bool) (n_derivatives deriv_spread : Z) :
  valid_config audio fs window_dt dt n_filters n_fft minfreq maxfreq ->
  1 <= n_filters ->
  n_filters < n_cepstra ->
  0 <= n_derivatives ->
  (1 <= n_derivatives -> 1 <= deriv_spread) ->
  shape_preserving utils ->
  exists M,
    mfcc audio fs window_dt dt n_cepstra n_filters n_fft minfreq maxfreq
         preemph lift energy n_derivatives deriv_spread = Ok M /\
    M <> [] /\
    has_width (n_filters * (1 + n_derivatives)) M /\
    ~ has_width (n_cepstra * (1 + n_derivatives)) M.
Proof.
  intros Hvalid Hnf Hnc Hnd Hspread Hsp.
  assert (Hcw : cepstra_width n_cepstra n_filters = n_filters).
  { unfold cepstra_width. destruct (Z.leb_spec 0 n_cepstra); lia. }
  assert (Hstep : 1 <= py_round (b64_mul dt fs))
    by (destruct Hvalid as (_ & _ & H & _); exact H).
  destruct (mfcc_run audio fs window_dt dt n_cepstra n_filters n_fft minfreq maxfreq
              preemph lift energy n_derivatives deriv_spread)
    as (emph & frames & feat & energy_ & M & n & _ & _ & _ & _ & _ & Hn & HM & HlM
        & _ & HwM & _); try assumption.
  { rewrite Hcw. intros _. exact Hnf. }
  destruct (framesig_numframes_ok (Z.of_nat (length audio))
              (py_round (b64_mul window_dt fs)) (py_round (b64_mul dt fs)) Hstep)
    as (n' & Hn' & _ & Hn1 & _).
  rewrite Hn in Hn'. injection Hn' as <-.
  rewrite Hcw in HwM.
  replace (Z.max 0 n_derivatives) with n_derivatives in HwM by lia.
  exists M. split; [exact HM|].
  destruct M as [|row M]; [simpl in HlM; lia|].
  split; [discriminate|]. split; [exact HwM|].
  intros Hdoc. inversion HwM as [|? ? Hrow _]; subst.
  inversion Hdoc as [|? ? Hrow' _]; subst. nia.
Qed.

(** C5.  With the energy flag, on valid arguments and at least one cepstrum
    kept, column 0 of the matrix that [mfcc] returns holds, for every frame,
    the logarithm of the frame energy: the sum of the row of the power
    spectrum, replaced by the machine epsilon when it is zero.  The entry is
    that logarithm itself, not a multiple of it and not a sum with the
    liftered coefficient. *)
Theorem mfcc_energy_column (audio : vec) (fs window_dt dt : Q)
  (n_cepstra n_filters n_fft : Z) (minfreq : Q) (maxfreq : option Q)
  (preemph : Q) (lift : pynum) (n_derivatives deriv_spread : Z) :
  valid_config audio fs window_dt dt n_filters n_fft minfreq maxfreq ->
  1 <= n_filters ->
  1 <= n_cepstra ->
  (1 <= n_derivatives -> 1 <= deriv_spread) ->
  shape_preserving utils ->
  exists (emph : vec) (frames pspec feat : mat) (energy_ : vec) (M : mat),
    preemphasis audio preemph = Ok emph /\
    framesig emph (b64_mul window_dt fs) (b64_mul dt fs) rect_window = Ok frames /\
    powspec frames n_fft = Ok pspec /\
    fbank audio fs window_dt dt n_filters n_fft minfreq maxfreq preemph
    = Ok (feat, energy_) /\
    mfcc audio fs window_dt dt n_cepstra n_filters n_fft minfreq maxfreq
         preemph lift true n_derivatives deriv_spread = Ok M /\
    length M = length frames /\
    forall i, (i < length M)%nat ->
      nth i energy_ 0%Q = floor_eps (Qsum (nth i pspec [])) /\
      nth 0 (nth i M []) 0%Q = m_log (floor_eps (Qsum (nth i pspec []))).
Proof.
  intros Hvalid Hnf Hnc Hspread Hsp.
  destruct (mfcc_run audio fs window_dt dt n_cepstra n_filters n_fft minfreq maxfreq
              preemph lift true n_derivatives deriv_spread)
    as (emph & frames & feat & energy_ & M & n & Hemph & Hframes & Hps & He & Hfb
        & _ & HM & _ & Hle & _ & Hcol); try assumption.
  { intros _. unfold cepstra_width. destruct (Z.leb_spec 0 n_cepstra); lia. }
  exists emph, frames, (map (power_row n_fft) frames), feat, energy_, M.
  repeat (split; [assumption|]).
  assert (Hlen : length M = length frames).
  { rewrite <- Hle, He. now rewrite !length_map. }
  split; [exact Hlen|]. intros i Hi.
  assert (Hei : nth i energy_ 0%Q
                = floor_eps (Qsum (nth i (map (power_row n_fft) frames) []))).
  { rewrite He. rewrite (nth_map_lt floor_eps _ _ 0%Q) by (rewrite !length_map; lia).
    f_equal. apply (nth_map_lt Qsum). rewrite length_map. lia. }
  split; [exact Hei|]. rewrite <- Hei. now apply Hcol.
Qed.

End MfccClaims.

Lemma mfcc_feature_width_witness :
  exists M,
    @mfcc toy_libm toy_utils (repeat 0%Q (Z.to_nat 16000)) 16000 (25 # 1000) (1 # 100)
          13 26 512 0 None (97 # 100) (PyInt 22) true 0 2 = Ok M /\
    Z.of_nat (length M) = 99 /\
    has_width 13 M.
Proof.
  destruct (@mfcc_feature_width toy_libm toy_utils
              (repeat 0%Q (Z.to_nat 16000)) 16000 (25 # 1000) (1 # 100)
              13 26 512 0 None (97 # 100) (PyInt 22) true 0 2)
    as (M & HM & Hrows & Hw).
  - valid_config_by_computation.
  - lia.
  - lia.
  - lia.
  - lia.
  - lia.
  - exact toy_utils_shape_preserving.
  - exists M. split; [exact HM|]. split; [|exact Hw].
    rewrite Hrows. vm_compute. reflexivity.
Defined.

Lemma mfcc_too_many_cepstra_witness :
  exists M,
    @mfcc toy_libm toy_utils [1; 2; 3; 4; 5]%Q 4 1 (1 # 2) 5 2 4 0 None
          (97 # 100) (PyInt 22) true 0 2 = Ok M /\
    length M = 2%nat /\ has_width 2 M /\ ~ has_width 5 M.
Proof.
  destruct (@mfcc_too_many_cepstra toy_libm toy_utils
              [1; 2; 3; 4; 5]%Q 4 1 (1 # 2) 5 2 4 0 None (97 # 100) (PyInt 22) true 0 2)
    as (M & HM & _ & Hw & Hdoc).
  - valid_config_by_computation.
  - lia.
  - lia.
  - lia.
  - lia.
  - exact toy_utils_shape_preserving.
  - exists M. split; [exact HM|]. split; [|split; [exact Hw | exact Hdoc]].
    vm_compute in HM. injection HM as <-. reflexivity.
Defined.

Lemma mfcc_energy_column_witness :
  exists (feat : mat) (energy_ : vec) (M : mat),
    @fbank toy_libm [1; 2; 3; 4; 5]%Q 4 1 (1 # 2) 2 4 0 None (97 # 100)
    = Ok (feat, energy_) /\
    @mfcc toy_libm toy_utils [1; 2; 3; 4; 5]%Q 4 1 (1 # 2) 2 2 4 0 None
          (97 # 100) (PyInt 22) true 1 2 = Ok M /\
    forall i, (i < length M)%nat ->
      nth 0 (nth i M []) 0%Q = @m_log toy_libm (nth i energy_ 0%Q).
Proof.
  destruct (@mfcc_energy_column toy_libm toy_utils
              [1; 2; 3; 4; 5]%Q 4 1 (1 # 2) 2 2 4 0 None (97 # 100) (PyInt 22) 1 2)
    as (emph & frames & pspec & feat & energy_ & M & _ & _ & _ & Hfb & HM & _ & Hcol).
  - valid_config_by_computation.
  - lia.
  - lia.
  - lia.
  - exact toy_utils_shape_preserving.
  - exists feat, energy_, M. split; [exact Hfb|]. split; [exact HM|].
    intros i Hi. destruct (Hcol i Hi) as [-> ->]. reflexivity.
Defined.


(** * Further properties of the module *)

(** ** Pre-emphasis *)

Section PreemphasisFacts.
Context {libm : Libm} {utils : Utils}.

Lemma preemphasis_nth (signal : vec) (coeff : Q) :
  signal <> [] ->
  exists out,
    preemphasis signal coeff = Ok out /\
    length out = length signal /\
    nth 0 out 0%Q = nth 0 signal 0%Q /\
    forall i, (1 <= i < length signal)%nat ->
      nth i out 0%Q = (nth i signal 0 - coeff * nth (i - 1) signal 0)%Q.
Proof.
  intros Hne. destruct signal as [|x l]; [contradiction|].
  assert (Hrl : length (removelast (x :: l)) = length l).
  { rewrite removelast_firstn_len, length_firstn. simpl. lia. }
  unfold preemphasis.
  rewrite (getitem_nonneg _ 0 0%Q) by (simpl; lia). cbn [bind].
  rewrite broadcast_same by (rewrite length_map, Hrl; reflexivity).
  eexists. split; [reflexivity|]. split.
  { cbn [length tl]. f_equal. rewrite map2_length; [reflexivity|].
    now rewrite length_map, Hrl. }
  split; [reflexivity|].
  intros i Hi. destruct i as [|k]; [lia|]. cbn [length] in Hi.
  cbn [nth tl]. rewrite (map2_nth _ _ _ _ 0%Q 0%Q)
    by (rewrite ?length_map, ?Hrl; lia).
  rewrite (nth_map_lt _ _ _ 0%Q) by (rewrite Hrl; lia).
  rewrite removelast_firstn_len, nth_firstn. cbn [length Nat.pred].
  replace (k <? length l)%nat with true by (symmetry; apply Nat.ltb_lt; lia).
  replace (S k - 1)%nat with k by lia. reflexivity.
Qed.

(** X1.  On a signal with at least one sample [preemphasis] keeps the
    length, copies the first sample and replaces every later sample [s[i]]
    by [s[i] - coeff * s[i-1]]. *)
Theorem preemphasis_samples (signal : vec) (coeff : Q) :
  signal <> [] ->
  exists out,
    preemphasis signal coeff = Ok out /\
    length out = length signal /\
    nth 0 out 0%Q = nth 0 signal 0%Q /\
    forall i, (1 <= i < length signal)%nat ->
      nth i out 0%Q = (nth i signal 0 - coeff * nth (i - 1) signal 0)%Q.
Proof.
  intros Hne. destruct (preemphasis_nth signal coeff Hne) as (out & H).
  exists out. exact H.
Qed.

(** X2.  Every feature of the module starts with [preemphasis], which reads
    [signal[0]]: on an empty signal [preemphasis], [fbank], [logfbank],
    [mfcc] and [ssc] raise [IndexError], whatever the other arguments. *)
Theorem empty_signal_raises (fs window_dt dt : Q) (n_cepstra n_filters n_fft : Z)
  (minfreq : Q) (maxfreq : option Q) (preemph : Q) (lift : pynum) (energy : bool)
  (n_derivatives deriv_spread : Z) :
  preemphasis [] preemph = Raise IndexError /\
  fbank [] fs window_dt dt n_filters n_fft minfreq maxfreq preemph
  = Raise IndexError /\
  logfbank [] fs window_dt dt n_filters n_fft minfreq maxfreq preemph
  = Raise IndexError /\
  mfcc [] fs window_dt dt n_cepstra n_filters n_fft minfreq maxfreq preemph
       lift energy n_derivatives deriv_spread = Raise IndexError /\
  ssc [] fs window_dt dt n_filters n_fft minfreq maxfreq preemph
  = Raise IndexError.
Proof.
  repeat split; reflexivity.
Qed.

(** X3.  A pre-emphasis coefficient of zero is no filter: every sample of
    the output equals the sample of the input. *)
Theorem preemphasis_zero_coefficient (signal : vec) (coeff : Q) :
  signal <> [] -> (coeff == 0)%Q ->
  exists out,
    preemphasis signal coeff = Ok out /\
    length out = length signal /\
    forall i, (i < length signal)%nat -> (nth i out 0 == nth i signal 0)%Q.
Proof.
  intros Hne Hc.
  destruct (preemphasis_nth signal coeff Hne) as (out & Hrun & Hlen & H0 & Hi).
  exists out. split; [exact Hrun|]. split; [exact Hlen|].
  intros i Hlt. destruct i as [|k].
  - rewrite H0. reflexivity.
  - rewrite Hi by lia. rewrite Hc. ring.
Qed.

End PreemphasisFacts.

Lemma preemphasis_samples_witness :
  @preemphasis [4; 6; 5]%Q (1 # 2) = Ok [4; 6 - (1 # 2) * 4; 5 - (1 # 2) * 6]%Q.
Proof.
  destruct (preemphasis_samples [4; 6; 5]%Q (1 # 2)) as (out & Hrun & Hlen & H0 & Hi).
  - discriminate.
  - rewrite Hrun. f_equal.
    destruct out as [|a [|b [|c [|d out]]]]; try discriminate.
    simpl in H0. pose proof (Hi 1%nat ltac:(simpl; lia)) as H1.
    pose proof (Hi 2%nat ltac:(simpl; lia)) as H2. simpl in H1, H2.
    now rewrite H0, H1, H2.
Defined.

Lemma preemphasis_zero_coefficient_witness :
  exists out, @preemphasis [4; 6; 5]%Q 0 = Ok out /\ length out = 3%nat.
Proof.
  destruct (preemphasis_zero_coefficient [4; 6; 5]%Q 0) as (out & Hrun & Hlen & _).
  - discriminate.
  - reflexivity.
  - exists out. split; [exact Hrun | exact Hlen].
Defined.

(** ** Spectra *)

Lemma fit_length_firstn (x : vec) (n : nat) :
  fit_length (firstn n x) n = fit_length x n.
Proof.
  unfold fit_length. rewrite firstn_firstn, Nat.min_id, length_firstn.
  f_equal. f_equal. lia.
Qed.

Lemma firstn_repeat_min {A : Type} (a : A) (m k : nat) :
  firstn m (repeat a k) = repeat a (Nat.min m k).
Proof.
  revert k; induction m as [|m IH]; intros [|k]; simpl; try reflexivity.
  now rewrite IH.
Qed.

Lemma fit_length_zeros (x : vec) (k n : nat) :
  fit_length (x ++ repeat 0%Q k) n = fit_length x n.
Proof.
  unfold fit_length. rewrite firstn_app, length_app, repeat_length.
  rewrite <- app_assoc. f_equal.
  rewrite firstn_repeat_min, <- repeat_app. f_equal. lia.
Qed.

Section SpectrumFacts.
Context {libm : Libm}.

(** X4.  [powspec] divides by [N_FFT] before it transforms: an FFT size of
    zero raises [ZeroDivisionError], a negative one [ValueError] (from
    [np.fft.rfft]), and [magspec] raises [ValueError] for both. *)
Theorem spectrum_bad_fft_size (frames : mat) (N_FFT : Z) :
  N_FFT <= 0 ->
  magspec frames N_FFT = Raise ValueError /\
  powspec frames N_FFT
  = Raise (if N_FFT =? 0 then ZeroDivisionError else ValueError).
Proof.
  intros Hn.
  assert (Hmag : magspec frames N_FFT = Raise ValueError).
  { unfold magspec, np_fft_rfft.
    now replace (N_FFT <? 1) with true by (symmetry; apply Z.ltb_lt; lia). }
  split; [exact Hmag|].
  unfold powspec. destruct (N_FFT =? 0); [reflexivity|].
  cbn [bind]. now rewrite Hmag.
Qed.

(** X5.  [magspec] and [powspec] see only the first [N_FFT] samples of a
    frame, and zeros appended to a frame change nothing: the spectrum of a
    frame is the spectrum of the frame cut or zero-padded to [N_FFT]
    samples. *)
Theorem spectrum_cut_and_padding (frames : mat) (N_FFT : Z) (k : nat) :
  magspec (map (firstn (Z.to_nat N_FFT)) frames) N_FFT = magspec frames N_FFT /\
  powspec (map (firstn (Z.to_nat N_FFT)) frames) N_FFT = powspec frames N_FFT /\
  magspec (map (fun x => x ++ repeat 0%Q k) frames) N_FFT = magspec frames N_FFT /\
  powspec (map (fun x => x ++ repeat 0%Q k) frames) N_FFT = powspec frames N_FFT.
Proof.
  assert (Hcut : np_fft_rfft (map (firstn (Z.to_nat N_FFT)) frames) N_FFT
                 = np_fft_rfft frames N_FFT).
  { unfold np_fft_rfft. destruct (N_FFT <? 1); [reflexivity|].
    f_equal. rewrite map_map. apply map_ext. intros x.
    now rewrite fit_length_firstn. }
  assert (Hpad : np_fft_rfft (map (fun x => x ++ repeat 0%Q k) frames) N_FFT
                 = np_fft_rfft frames N_FFT).
  { unfold np_fft_rfft. destruct (N_FFT <? 1); [reflexivity|].
    f_equal. rewrite map_map. apply map_ext. intros x.
    now rewrite fit_length_zeros. }
  unfold powspec, magspec. rewrite Hcut, Hpad. repeat split; reflexivity.
Qed.

End SpectrumFacts.

Lemma spectrum_bad_fft_size_witness :
  @powspec toy_libm [[1; 2]]%Q (-4) = Raise ValueError.
Proof.
  apply (@spectrum_bad_fft_size toy_libm [[1; 2]]%Q (-4)). lia.
Defined.

(** ** Framing *)

(** X6.  A frame step that rounds to zero samples makes [framesig] divide
    by zero as soon as the signal is longer than one frame. *)
Theorem framesig_zero_step (sig : vec) (frame_len frame_step : Q)
  (winfunc : Z -> result vec) :
  py_round frame_step = 0 ->
  py_round frame_len < Z.of_nat (length sig) ->
  framesig sig frame_len frame_step winfunc = Raise ZeroDivisionError.
Proof.
  intros Hs Hl. unfold framesig, framesig_numframes. rewrite Hs.
  now replace (Z.of_nat (length sig) <=? py_round frame_len) with false
    by (symmetry; apply Z.leb_gt; lia).
Qed.

Lemma framesig_zero_step_witness :
  framesig [1; 2; 3; 4; 5]%Q 2 (1 # 4) rect_window = Raise ZeroDivisionError.
Proof.
  apply framesig_zero_step.
  - reflexivity.
  - reflexivity.
Defined.

(** X7.  With a step of at least one sample and no longer than a frame,
    framing loses no sample: every sample [sig[p]] sits, times the window
    weight, at position [j] of some frame [i] with [i * frame_step + j = p]. *)
Theorem framesig_keeps_every_sample (sig : vec) (frame_len frame_step : Q)
  (winfunc : Z -> result vec) (w : vec) :
  let fl := py_round frame_len in
  let fs := py_round frame_step in
  let slen := Z.of_nat (length sig) in
  1 <= fs <= fl ->
  Z.max slen fl + fs <= 2 ^ 31 ->
  winfunc fl = Ok w -> length w = Z.to_nat fl ->
  exists frames,
    framesig sig frame_len frame_step winfunc = Ok frames /\
    forall p, 0 <= p < slen ->
      exists i j,
        0 <= i < Z.of_nat (length frames) /\ 0 <= j < fl /\ i * fs + j = p /\
        nth (Z.to_nat j) (nth (Z.to_nat i) frames []) 0%Q
        = (nth (Z.to_nat p) sig 0 * nth (Z.to_nat j) w 0)%Q.
Proof.
  intros fl fs slen Hs Hsmall Hw Hwl.
  destruct (framesig_eq sig frame_len frame_step winfunc w)
    as (n & Hn & Hn1 & Hpad & Hrun); try assumption; try lia.
  fold fl fs slen in Hn, Hpad, Hrun.
  destruct (framesig_numframes_ok slen fl fs ltac:(lia))
    as (n' & Hn' & _ & _ & _ & Hupper).
  rewrite Hn in Hn'. injection Hn' as <-.
  set (padlen := (n - 1) * fs + fl) in *.
  set (pad := sig ++ repeat 0%Q (Z.to_nat (padlen - slen))) in *.
  assert (Hlpad : Z.of_nat (length pad) = padlen).
  { unfold pad. rewrite length_app, repeat_length. unfold slen in *. lia. }
  destruct (frames_of_shape pad w fl fs n ltac:(lia) Hwl) as [Hlen _].
  eexists. split; [exact Hrun|].
  intros p Hp.
  set (i := Z.min (n - 1) (p / fs)).
  assert (Hdiv : 0 <= p / fs) by (apply Z.div_pos; lia).
  pose proof (Z.mul_div_le p fs ltac:(lia)) as H1.
  pose proof (Z.mul_succ_div_gt p fs ltac:(lia)) as H2.
  assert (Hi : 0 <= i < n) by (unfold i; lia).
  assert (Hj : 0 <= p - i * fs < fl).
  { unfold i. destruct (Z.min_spec (n - 1) (p / fs)) as [[? ->]|[? ->]]; nia. }
  exists i, (p - i * fs).
  split; [rewrite Hlen; lia|]. split; [exact Hj|]. split; [lia|].
  rewrite frames_of_nth; try assumption; try lia.
  replace (i * fs + (p - i * fs)) with p by lia.
  unfold pad. rewrite app_nth1 by (unfold slen in Hp; lia). reflexivity.
Qed.

Lemma framesig_keeps_every_sample_witness :
  exists frames,
    framesig [1; 2; 3; 4; 5]%Q 3 2 rect_window = Ok frames /\
    exists i j, i * 2 + j = 4 /\
      nth (Z.to_nat j) (nth (Z.to_nat i) frames []) 0%Q = (5 * 1)%Q.
Proof.
  destruct (framesig_keeps_every_sample [1; 2; 3; 4; 5]%Q 3 2 rect_window
              [1; 1; 1]%Q)
    as (frames & Hrun & Hall).
  - vm_compute. split; discriminate.
  - vm_compute. discriminate.
  - reflexivity.
  - reflexivity.
  - exists frames. split; [exact Hrun|].
    destruct (Hall 4) as (i & j & _ & Hj & Hsum & Hval).
    + simpl. lia.
    + change (py_round 3) with 3 in Hj. change (py_round 2) with 2 in Hsum.
      exists i, j. split; [exact Hsum|].
      rewrite Hval.
      assert (Hcases : j = 0 \/ j = 1 \/ j = 2) by lia.
      destruct Hcases as [-> | [-> | ->]]; reflexivity.
Defined.

(** X8.  [deframesig] asserts that the frames are [frame_len] wide: frames
    of another width raise [AssertionError] before anything is added. *)
Theorem deframesig_wrong_width (frames : mat) (frame_len frame_step : Q)
  (siglen : option Z) (winfunc : Z -> result vec) :
  frames <> [] ->
  shape1 frames <> py_round frame_len ->
  deframesig frames frame_len frame_step siglen winfunc = Raise AssertionError.
Proof.
  intros _ H. unfold deframesig.
  now replace (shape1 frames =? py_round frame_len) with false
    by (symmetry; apply Z.eqb_neq; exact H).
Qed.

Lemma deframesig_wrong_width_witness :
  deframesig [[1; 2; 3]; [4; 5; 6]]%Q 2 1 None rect_window = Raise AssertionError.
Proof.
  apply deframesig_wrong_width; discriminate.
Defined.





(** The same frames with [siglen = 2]: the gap at index 2 is cut off and
    the two samples of the first frame come back. *)
Lemma deframesig_gap_cut_off :
  deframesig [[1; 2]; [3; 4]]%Q 2 3 (Some 2) rect_window
  = Ok [1 / (1 + window_bias); 2 / (1 + window_bias)]%Q.
Proof.
  reflexivity.
Qed.



(** ** The Mel filterbank *)

Section FilterbankFacts.
Context {libm : Libm}.

(** X11.  Whenever [get_filterbanks] returns, it returns what its docstring
    announces: [n_filters] rows of [n_fft / 2 + 1] columns; and then
    [n_filters] is not negative and the top of the band is at most half the
    sample rate. *)
Theorem get_filterbanks_rows_columns (n_filters n_fft : Z) (fs minfreq : Q)
  (maxfreq : option Q) (fb : mat) :
  get_filterbanks n_filters n_fft fs minfreq maxfreq = Ok fb ->
  Z.of_nat (length fb) = n_filters /\
  has_width (n_fft / 2 + 1) fb /\
  (match maxfreq with None => half_rate fs | Some f => f end <= half_rate fs)%Q.
Proof.
  intros H.
  destruct (get_filterbanks_shape _ _ _ _ _ _ H) as [Hl Hw].
  destruct (get_filterbanks_ok_inv _ _ _ _ _ _ H) as [Ha _].
  split; [exact Hl|]. split; [exact Hw|]. now apply Qle_bool_iff.
Qed.

(** X12.  Neighbouring filters share a slope: between the centre bin [b1] of
    filter [j] and its upper bin [b2], the falling weight of filter [j] and
    the rising weight of filter [j + 1] add up to one. *)
Theorem get_filterbanks_neighbours_sum (n_filters n_fft : Z) (fs minfreq : Q)
  (maxfreq : option Q) (fbin : list Z) (fb : mat) (j i : Z) :
  let top := match maxfreq with None => half_rate fs | Some f => f end in
  let ncols := n_fft / 2 + 1 in
  let b1 := nth (Z.to_nat (j + 1)) fbin 0 in
  let b2 := nth (Z.to_nat (j + 2)) fbin 0 in
  let weight k i := nth (Z.to_nat i) (nth (Z.to_nat k) fb []) 0%Q in
  control_bins n_filters n_fft fs minfreq top = Ok fbin ->
  Forall (fun b => 0 <= b <= ncols) fbin ->
  get_filterbanks n_filters n_fft fs minfreq maxfreq = Ok fb ->
  0 <= j -> j + 1 < n_filters ->
  b1 <= i < b2 ->
  (weight j i + weight (j + 1)%Z i == 1)%Q.
Proof.
  intros top ncols b1 b2 weight Hbins Hrange Hrun Hj Hj1 Hi.
  destruct (get_filterbanks_ok_inv _ _ _ _ _ _ Hrun) as [Hassert Hn].
  fold top in Hassert.
  rewrite (get_filterbanks_eq n_filters n_fft fs minfreq maxfreq fbin) in Hrun
    by assumption.
  injection Hrun as <-. fold ncols in weight |- *.
  pose proof (control_bins_length _ _ _ _ _ _ Hn Hbins) as Hlen.
  assert (Hb : 0 <= b1 /\ b2 <= ncols).
  { rewrite Forall_forall in Hrange. split.
    - apply (Hrange b1). apply nth_In. lia.
    - apply (Hrange b2). apply nth_In. lia. }
  assert (Hrow : forall k, 0 <= k < n_filters ->
            nth (Z.to_nat k) (map (filter_row fbin ncols) (py_range 0 n_filters)) []
            = filter_row fbin ncols k).
  { intros k Hk. rewrite (nth_map_lt _ _ _ 0) by (rewrite py_range_length; lia).
    rewrite py_range_nth by lia. f_equal. lia. }
  unfold weight. rewrite !Hrow by lia. rewrite !filter_row_nth by lia.
  replace (j + 1 + 1) with (j + 2) by lia. fold b1 b2.
  unfold triangle.
  replace (i <? b1) with false by (symmetry; apply Z.ltb_ge; lia).
  rewrite andb_false_r.
  replace (b1 <=? i) with true by (symmetry; apply Z.leb_le; lia).
  replace (i <? b2) with true by (symmetry; apply Z.ltb_lt; lia).
  cbn [andb].
  assert (Hd : ~ (inject_Z (b2 - b1) == 0)%Q).
  { intros E. assert (H : (inject_Z 0 < inject_Z (b2 - b1))%Q)
      by (rewrite <- Zlt_Qlt; lia).
    rewrite E in H. now apply Qlt_irrefl in H. }
  rewrite <- (Qdiv_Z_same (b2 - b1)) by lia.
  unfold Qdiv. rewrite <- Qmult_plus_distr_l.
  apply Qmult_comp; [|reflexivity].
  rewrite <- inject_Z_plus. now replace (b2 - i + (i - b1)) with (b2 - b1) by lia.
Qed.

(** X13.  With control bins on the bin axis every weight of the filterbank,
    of a collapsed filter too, lies between 0 and 1, and a bin below [b0] or
    from [b2] on has weight zero. *)
Theorem get_filterbanks_weights_bounded (n_filters n_fft : Z) (fs minfreq : Q)
  (maxfreq : option Q) (fbin : list Z) (fb : mat) (j i : Z) :
  let top := match maxfreq with None => half_rate fs | Some f => f end in
  let ncols := n_fft / 2 + 1 in
  let b0 := nth (Z.to_nat j) fbin 0 in
  let b1 := nth (Z.to_nat (j + 1)) fbin 0 in
  let b2 := nth (Z.to_nat (j + 2)) fbin 0 in
  let weight := nth (Z.to_nat i) (nth (Z.to_nat j) fb []) 0%Q in
  control_bins n_filters n_fft fs minfreq top = Ok fbin ->
  Forall (fun b => 0 <= b <= ncols) fbin ->
  get_filterbanks n_filters n_fft fs minfreq maxfreq = Ok fb ->
  0 <= j < n_filters -> 0 <= i < ncols ->
  (0 <= weight <= 1)%Q /\
  (b0 <= b1 <= b2 -> i < b0 \/ b2 <= i -> weight = 0%Q).
Proof.
  intros top ncols b0 b1 b2 weight Hbins Hrange Hrun Hj Hi.
  destruct (get_filterbanks_ok_inv _ _ _ _ _ _ Hrun) as [Hassert Hn].
  fold top in Hassert.
  rewrite (get_filterbanks_eq n_filters n_fft fs minfreq maxfreq fbin) in Hrun
    by assumption.
  injection Hrun as <-. fold ncols in weight |- *.
  assert (Hw : weight = triangle b0 b1 b2 i).
  { unfold weight. rewrite (nth_map_lt _ _ _ 0) by (rewrite py_range_length; lia).
    rewrite py_range_nth by lia. rewrite Z.add_0_l, Z2Nat.id by lia.
    now apply filter_row_nth. }
  rewrite Hw. split; [apply triangle_range|].
  intros Hmono Hout. unfold triangle.
  destruct (Z.leb_spec b0 i), (Z.ltb_spec i b1); cbn [andb]; try lia;
    destruct (Z.leb_spec b1 i), (Z.ltb_spec i b2); cbn [andb]; try lia;
    reflexivity.
Qed.

End FilterbankFacts.

Lemma get_filterbanks_rows_columns_witness :
  exists fb, @get_filterbanks toy_libm 2 8 16 0 None = Ok fb /\
             Z.of_nat (length fb) = 2 /\ has_width 5 fb.
Proof.
  assert (H : exists fb, @get_filterbanks toy_libm 2 8 16 0 None = Ok fb)
    by (vm_compute; eexists; reflexivity).
  destruct H as [fb Hfb]. exists fb. split; [exact Hfb|].
  destruct (@get_filterbanks_rows_columns toy_libm 2 8 16 0 None fb Hfb)
    as (Hl & Hw & _).
  split; [exact Hl | exact Hw].
Defined.

Lemma get_filterbanks_neighbours_sum_witness :
  exists fb, @get_filterbanks toy_libm 2 8 16 0 None = Ok fb /\
             (nth 2 (nth 0 fb []) 0 + nth 2 (nth 1 fb []) 0 == 1)%Q.
Proof.
  assert (H : exists fb, @get_filterbanks toy_libm 2 8 16 0 None = Ok fb)
    by (vm_compute; eexists; reflexivity).
  destruct H as [fb Hfb]. exists fb. split; [exact Hfb|].
  apply (@get_filterbanks_neighbours_sum toy_libm 2 8 16 0 None [0; 1; 3; 4] fb 0 2).
  - reflexivity.
  - repeat constructor; discriminate.
  - exact Hfb.
  - lia.
  - lia.
  - simpl. lia.
Defined.

Lemma get_filterbanks_weights_bounded_witness :
  exists fb, @get_filterbanks toy_libm 3 2 16 0 None = Ok fb /\
             (0 <= nth 0 (nth 1 fb []) 0 <= 1)%Q.
Proof.
  assert (H : exists fb, @get_filterbanks toy_libm 3 2 16 0 None = Ok fb)
    by (vm_compute; eexists; reflexivity).
  destruct H as [fb Hfb]. exists fb. split; [exact Hfb|].
  apply (@get_filterbanks_weights_bounded toy_libm 3 2 16 0 None [0; 0; 0; 1; 1] fb 1 0).
  - reflexivity.
  - repeat constructor; discriminate.
  - exact Hfb.
  - lia.
  - simpl. lia.
Defined.

(** ** Liftering *)

Section LifterFacts.
Context {libm : Libm}.

(** X14.  [lifter] keeps the shape of the cepstra.  A coefficient [L <= 0]
    returns them unchanged; a positive [L] multiplies coefficient [n] of
    every frame by [1 + (L / 2) * sin(pi * n / L)], where [L / 2] is the
    floor quotient when [L] is an integer (the source is Python 2) and the
    half of [L] when it is a float: the integer 5 lifts with the factor 2
    where the float 5.0 lifts with 2.5. *)
Theorem lifter_entries (cepstra : mat) (L : pynum) (w : Z) :
  has_width w cepstra ->
  exists out,
    lifter cepstra L = Ok out /\
    length out = length cepstra /\
    has_width w out /\
    ((py_value L <= 0)%Q -> out = cepstra) /\
    ((0 < py_value L)%Q ->
     forall i n, (i < length cepstra)%nat -> 0 <= n < w ->
       nth (Z.to_nat n) (nth i out []) 0%Q
       = ((1 + py_half L * m_sin (m_pi * inject_Z n / py_value L))
          * nth (Z.to_nat n) (nth i cepstra []) 0)%Q) /\
    (forall z, L = PyInt z -> py_half L = inject_Z (z / 2)) /\
    (forall x, L = PyFloat x -> py_half L = (x / 2)%Q).
Proof.
  intros Hw.
  destruct (lifter_shape cepstra L w Hw) as (out & Hrun & Hlen & Hwout).
  exists out. split; [exact Hrun|]. split; [exact Hlen|]. split; [exact Hwout|].
  assert (Hhalf : (forall z, L = PyInt z -> py_half L = inject_Z (z / 2)) /\
                  (forall x, L = PyFloat x -> py_half L = (x / 2)%Q)).
  { split; intros v ->; reflexivity. }
  unfold lifter in Hrun. destruct (Qle_bool (py_value L) 0) eqn:E.
  - injection Hrun as <-. split; [reflexivity|].
    apply Qle_bool_imp_le in E. split; [|exact Hhalf]. intros Hpos. exfalso.
    apply (Qlt_irrefl (py_value L)). eapply Qle_lt_trans; eauto.
  - split.
    { intros Hle. apply Qle_bool_iff in Hle. congruence. }
    split; [|exact Hhalf].
    intros _ i n Hi Hn.
    set (lift := map _ (np_arange (shape1 cepstra))) in Hrun.
    assert (Hs1 : shape1 cepstra = w).
    { destruct cepstra as [|r0 c]; [simpl in Hi; lia|]. simpl.
      inversion Hw; subst. reflexivity. }
    assert (Hout : out = map (map2 Qmult lift) cepstra).
    { assert (Hm : mapM (fun row => broadcast Qmult lift row) cepstra
                   = Ok (map (map2 Qmult lift) cepstra)).
      { apply mapM_ok_map. intros row Hrow. apply broadcast_same.
        unfold lift. rewrite length_map, np_arange_length, Hs1.
        unfold has_width in Hw. rewrite Forall_forall in Hw.
        specialize (Hw row Hrow). lia. }
      rewrite Hm in Hrun. now injection Hrun. }
    rewrite Hout. rewrite (nth_map_lt _ _ _ []) by exact Hi.
    pose proof (has_width_nth w cepstra i Hw Hi) as Hrow.
    rewrite (map2_nth _ _ _ _ 0%Q 0%Q)
      by (unfold lift; rewrite ?length_map, ?np_arange_length, ?Hs1; lia).
    unfold lift. rewrite (nth_map_lt _ _ _ 0) by (rewrite np_arange_length; lia).
    rewrite np_arange_nth by lia. now rewrite Z2Nat.id by lia.
Qed.

End LifterFacts.

Lemma lifter_entries_witness :
  exists out,
    @lifter toy_libm [[1; 2]; [3; 4]]%Q (PyInt 5) = Ok out /\
    has_width 2 out /\
    (nth 1 (nth 0 out []) 0 == (1 + 2 * (22 # 35)) * 2)%Q.
Proof.
  destruct (@lifter_entries toy_libm [[1; 2]; [3; 4]]%Q (PyInt 5) 2)
    as (out & Hrun & _ & Hw & _ & Hpos & _).
  - repeat constructor.
  - exists out. split; [exact Hrun|]. split; [exact Hw|].
    assert (Hi : (0 < length [[1; 2]; [3; 4]]%Q)%nat) by (simpl; lia).
    assert (Hn : 0 <= 1 < 2) by lia.
    pose proof (Hpos eq_refl 0%nat 1 Hi Hn) as H.
    change (Z.to_nat 1) with 1%nat in H. rewrite H. reflexivity.
Defined.

(** ** The log power spectrum *)



Section LogPowerFacts.
Context {libm : Libm}.


(** X16.  There is no largest value in an empty matrix: with [norm] set,
    [logpowspec] of no frames raises [ValueError], and without [norm] it
    returns the empty matrix. *)
Theorem logpowspec_no_frames (N_FFT : Z) :
  1 <= N_FFT ->
  logpowspec [] N_FFT true = Raise ValueError /\
  logpowspec [] N_FFT false = Ok [].
Proof.
  intros Hn. unfold logpowspec. rewrite powspec_eq by exact Hn.
  split; reflexivity.
Qed.

(** X17.  [logpowspec] never hands [log10] a value below [1e-30]: the
    power spectrum is floored there first, so the logarithm of zero is not
    taken, whatever the frames are. *)
Theorem logpowspec_floor (frames : mat) (N_FFT : Z) :
  1 <= N_FFT ->
  exists pspec floored,
    powspec frames N_FFT = Ok pspec /\
    floored = map (map floor_power) pspec /\
    Forall (Forall (fun p => (power_floor <= p)%Q)) floored /\
    Forall2 (Forall2 (fun p q => q = if Qle_bool p power_floor then power_floor else p))
            pspec floored /\
    logpowspec frames N_FFT false
    = Ok (map (map (fun p => (10 * m_log10 p)%Q)) floored).
Proof.
  intros Hn. exists (map (power_row N_FFT) frames). eexists.
  split; [now apply powspec_eq|]. split; [reflexivity|]. split; [|split].
  - apply Forall_forall. intros row Hrow. apply in_map_iff in Hrow as (r & <- & _).
    apply Forall_forall. intros x Hx. apply in_map_iff in Hx as (y & <- & _).
    unfold floor_power. destruct (Qle_bool y power_floor) eqn:E; [apply Qle_refl|].
    destruct (Qlt_le_dec power_floor y) as [Hlt|Hle]; [now apply Qlt_le_weak|].
    apply Qle_bool_iff in Hle. congruence.
  - induction (map (power_row N_FFT) frames) as [|r rs IH]; simpl; constructor; auto.
    clear. induction r as [|x r IH]; simpl; constructor; auto.
  - unfold logpowspec. rewrite powspec_eq by exact Hn. reflexivity.
Qed.

End LogPowerFacts.


Lemma logpowspec_no_frames_witness :
  @logpowspec toy_libm [] 4 true = Raise ValueError.
Proof.
  apply (@logpowspec_no_frames toy_libm 4). lia.
Defined.

Lemma logpowspec_floor_witness :
  exists floored,
    @logpowspec toy_libm [[0; 0]]%Q 2 false
    = Ok (map (map (fun p => (10 * @m_log10 toy_libm p)%Q)) floored) /\
    Forall (Forall (fun p => (power_floor <= p)%Q)) floored.
Proof.
  destruct (@logpowspec_floor toy_libm [[0; 0]]%Q 2)
    as (pspec & floored & _ & _ & Hfl & _ & Hrun).
  - lia.
  - exists floored. split; [exact Hrun | exact Hfl].
Defined.

(** ** Spectral subband centroids *)



Lemma np_linspace_from_one (h : Q) (num : Z) :
  1 <= num -> (1 <= h)%Q ->
  exists ramp,
    np_linspace 1 h num = Ok ramp /\
    Z.of_nat (length ramp) = num /\
    Forall (fun x => (1 <= x <= h)%Q) ramp.
Proof.
  intros Hn Hh. unfold np_linspace.
  replace (num <? 0) with false by (symmetry; apply Z.ltb_ge; lia).
  destruct (Z.eqb_spec num 1) as [->|Hne].
  - eexists. split; [reflexivity|]. split; [reflexivity|].
    constructor; [|constructor]. split; [apply Qle_refl | exact Hh].
  - eexists. split; [reflexivity|]. split.
    { rewrite length_map, np_arange_length. lia. }
    apply Forall_forall. intros x Hx. apply in_map_iff in Hx as (i & <- & Hi).
    apply np_arange_In in Hi.
    assert (Hd : (0 < inject_Z (num - 1))%Q).
    { change 0%Q with (inject_Z 0). rewrite <- Zlt_Qlt. lia. }
    assert (Hi0 : (0 <= inject_Z i)%Q).
    { change 0%Q with (inject_Z 0). rewrite <- Zle_Qle. lia. }
    assert (Hi1 : (inject_Z i <= inject_Z (num - 1))%Q)
      by (rewrite <- Zle_Qle; lia).
    set (d := inject_Z (num - 1)) in *. set (t := inject_Z i) in *.
    assert (Hstep : (0 <= (h - 1) / d)%Q).
    { apply Qle_shift_div_l; [exact Hd|]. lra. }
    assert (Htd : (t * ((h - 1) / d) <= h - 1)%Q).
    { setoid_replace (h - 1)%Q with (d * ((h - 1) / d))%Q at 2
        by (field; intros E; rewrite E in Hd; now apply Qlt_irrefl in Hd).
      apply Qmult_le_compat_r; assumption. }
    assert (0 <= t * ((h - 1) / d))%Q by now apply Qmult_le_0_compat.
    split; lra.
Qed.

Lemma broadcast2_same {A B : Type} (op : A -> A -> B) (a b : list (list A)) :
  Forall2 (fun r s => length r = length s) a b ->
  broadcast2 op a b = Ok (map2 (map2 op) a b).
Proof.
  intros H. unfold broadcast2.
  rewrite (Forall2_length H), Nat.eqb_refl.
  induction H as [|r s a b Hrs Hab IH]; simpl; [reflexivity|].
  rewrite broadcast_same by exact Hrs. simpl. rewrite IH. reflexivity.
Qed.


Section SscFacts.
Context {libm : Libm}.

Lemma get_filterbanks_resolved (n_filters n_fft : Z) (fs minfreq : Q)
  (maxfreq : option Q) :
  get_filterbanks n_filters n_fft fs minfreq
    (Some (match maxfreq with None => half_rate fs | Some f => f end))
  = get_filterbanks n_filters n_fft fs minfreq maxfreq.
Proof. destruct maxfreq; reflexivity. Qed.

(** The arrays of [ssc] on valid arguments, up to the final division. *)
Lemma ssc_eq (audio : vec) (fs window_dt dt : Q) (n_filters n_fft : Z)
  (minfreq : Q) (maxfreq : option Q) (preemph : Q) :
  valid_config audio fs window_dt dt n_filters n_fft minfreq maxfreq ->
  (1 <= half_rate fs)%Q ->
  exists (frames fb : mat) (ramp : vec),
    let pspec := map (map floor_eps) (map (power_row n_fft) frames) in
    frames <> [] /\
    framesig_numframes (Z.of_nat (length audio)) (py_round (b64_mul window_dt fs))
                       (py_round (b64_mul dt fs)) = Ok (Z.of_nat (length frames)) /\
    get_filterbanks n_filters n_fft fs minfreq maxfreq = Ok fb /\
    Z.of_nat (length fb) = n_filters /\
    has_width (n_fft / 2 + 1) fb /\
    Forall (Forall (fun x => (0 <= x)%Q)) fb /\
    Z.of_nat (length ramp) = n_fft / 2 + 1 /\
    Forall (fun x => (1 <= x <= half_rate fs)%Q) ramp /\
    ssc audio fs window_dt dt n_filters n_fft minfreq maxfreq preemph
    = np_divide2
        (map (fun r => map (fun f => Qsum (map2 Qmult (map2 Qmult r ramp) f)) fb) pspec)
        (map (fun r => map (fun f => Qsum (map2 Qmult r f)) fb) pspec).
Proof.
  intros Hvalid Hrate.
  destruct (fbank_eq audio fs window_dt dt n_filters n_fft minfreq maxfreq
              preemph Hvalid)
    as (emph & frames & fb & n & Hemph & _ & Hframes & Hn & Hn1 & Hlf & Hps
        & Hfb & Hlfb & Hwfb & Hfbpos & _).
  assert (Hfft : 1 <= n_fft) by (destruct Hvalid as (_ & _ & _ & H & _); exact H).
  assert (Hhalf : 0 <= n_fft / 2) by (apply Z.div_pos; lia).
  set (pspec := map (map floor_eps) (map (power_row n_fft) frames)).
  assert (Hwp : has_width (n_fft / 2 + 1) pspec).
  { apply Forall_forall. intros row Hrow. unfold pspec in Hrow.
    rewrite map_map in Hrow. apply in_map_iff in Hrow as (x & <- & _).
    rewrite length_map. apply power_row_length. lia. }
  assert (Hne : frames <> []) by (intros E; rewrite E in Hlf; simpl in Hlf; lia).
  assert (Hs1 : shape1 pspec = n_fft / 2 + 1).
  { unfold pspec. destruct frames as [|f frames]; [contradiction|]. simpl.
    rewrite length_map. apply power_row_length. lia. }
  destruct (np_linspace_from_one (half_rate fs) (n_fft / 2 + 1) ltac:(lia) Hrate)
    as (ramp & Hramp & Hlramp & Hrange).
  exists frames, fb, ramp. cbn zeta. fold pspec.
  split; [exact Hne|]. split; [now rewrite Hlf|].
  repeat (split; [assumption|]).
  unfold ssc. rewrite Hemph. cbn [bind]. rewrite Hframes. cbn [bind].
  rewrite Hps. cbn [bind]. fold pspec.
  rewrite get_filterbanks_resolved, Hfb. cbn [bind].
  rewrite (np_dot_T_ok pspec fb (n_fft / 2 + 1)) by assumption. cbn [bind].
  rewrite Hs1, Hramp. cbn [bind]. unfold np_tile.
  replace (Z.of_nat (length pspec) <? 0) with false
    by (symmetry; apply Z.ltb_ge; lia).
  cbn [bind]. rewrite Nat2Z.id.
  assert (Hweighted : broadcast2 Qmult pspec (repeat ramp (length pspec))
                      = Ok (map (fun r => map2 Qmult r ramp) pspec)).
  { rewrite broadcast2_same.
    - f_equal. clear. induction pspec as [|r rs IH]; simpl; [reflexivity|].
      now rewrite IH.
    - clear -Hwp Hlramp. induction pspec as [|r rs IH]; simpl; constructor.
      + inversion Hwp; subst. lia.
      + apply IH. now inversion Hwp. }
  rewrite Hweighted. cbn [bind].
  rewrite (np_dot_T_ok _ fb (n_fft / 2 + 1)); [|  |exact Hwfb].
  - cbn [bind]. rewrite map_map. reflexivity.
  - apply Forall_forall. intros row Hrow. apply in_map_iff in Hrow as (r & <- & Hr).
    unfold has_width in Hwp. rewrite Forall_forall in Hwp. specialize (Hwp r Hr).
    rewrite map2_length; lia.
Qed.

End SscFacts.


Lemma Forall2_map_same {A B C : Type} (R : B -> C -> Prop) (h1 : A -> B)
  (h2 : A -> C) (l : list A) :
  (forall x, In x l -> R (h1 x) (h2 x)) -> Forall2 R (map h1 l) (map h2 l).
Proof.
  induction l as [|x l IH]; intros H; simpl; constructor.
  - apply H. now left.
  - apply IH. intros y Hy. apply H. now right.
Qed.

Lemma divide_row_closed (l : list (Q * Q)) :
  let g := fun p : Q * Q => if Qeq_bool (snd p) 0 then Raise NonFinite
                            else Ok (fst p / snd p)%Q in
  mapM g l = Raise NonFinite \/ exists ys, mapM g l = Ok ys.
Proof.
  induction l as [|[x y] l IH]; simpl; [right; eauto|].
  destruct (Qeq_bool y 0); [now left|]. simpl.
  destruct IH as [-> | (ys & ->)]; simpl; [now left | right; eauto].
Qed.

Lemma divide_row_raises (r s : vec) :
  length r = length s -> Exists (fun y => (y == 0)%Q) s ->
  mapM (fun p : Q * Q => if Qeq_bool (snd p) 0 then Raise NonFinite
                         else Ok (fst p / snd p)%Q)
       (map2 (fun x y => (x, y)) r s) = Raise NonFinite.
Proof.
  intros Hlen Hex. revert r Hlen.
  induction Hex as [y s Hy | y s Hex IH]; intros [|x r] Hlen; try discriminate;
    simpl.
  - apply Qeq_bool_iff in Hy. now rewrite Hy.
  - destruct (Qeq_bool y 0); [reflexivity|]. simpl.
    rewrite IH by now injection Hlen. reflexivity.
Qed.

Lemma np_divide2_raises (a b : mat) :
  Forall2 (fun r s => length r = length s) a b ->
  Exists (Exists (fun y => (y == 0)%Q)) b ->
  np_divide2 a b = Raise NonFinite.
Proof.
  intros Hshape Hex. unfold np_divide2.
  rewrite broadcast2_same by exact Hshape. cbn [bind].
  induction Hshape as [|r s a b Hrs Hab IH]; [inversion Hex|].
  simpl. inversion Hex as [? ? Hs | ? ? Hb]; subst.
  - now rewrite divide_row_raises.
  - destruct (divide_row_closed (map2 (fun x y => (x, y)) r s)) as [E | (ys & E)];
      simpl in E; rewrite E; [reflexivity|].
    simpl. rewrite IH by exact Hb. reflexivity.
Qed.

Lemma Qsum_zero_filter (r f : vec) :
  Forall (fun x => (x == 0)%Q) f -> (Qsum (map2 Qmult r f) == 0)%Q.
Proof.
  intros Hf. revert r. induction Hf as [|z f Hz Hf IH]; intros [|x r]; simpl;
    try reflexivity.
  change (x * z + Qsum (map2 Qmult r f) == 0)%Q. rewrite IH, Hz. ring.
Qed.

Section SscClaims.
Context {libm : Libm}.


(** X19.  [ssc] does not floor the filterbank energies as [fbank] does: a
    filter whose weights are all zero (its three control bins coincide) has
    energy zero in every frame, and the final division is by zero (NumPy
    yields [nan] in that column). *)
Theorem ssc_zero_filter (audio : vec) (fs window_dt dt : Q)
  (n_filters n_fft : Z) (minfreq : Q) (maxfreq : option Q) (preemph : Q)
  (fb : mat) :
  valid_config audio fs window_dt dt n_filters n_fft minfreq maxfreq ->
  (1 <= half_rate fs)%Q ->
  get_filterbanks n_filters n_fft fs minfreq maxfreq = Ok fb ->
  Exists (Forall (fun x => (x == 0)%Q)) fb ->
  ssc audio fs window_dt dt n_filters n_fft minfreq maxfreq preemph
  = Raise NonFinite.
Proof.
  intros Hvalid Hrate Hfb Hzero.
  destruct (ssc_eq audio fs window_dt dt n_filters n_fft minfreq maxfreq preemph
              Hvalid Hrate)
    as (frames & fb' & ramp & Hne & _ & Hfb' & _ & _ & _ & _ & _ & Hrun).
  rewrite Hfb in Hfb'. injection Hfb' as <-.
  rewrite Hrun. apply np_divide2_raises.
  - apply Forall2_map_same. intros r Hr. now rewrite !length_map.
  - destruct frames as [|fr frames]; [contradiction|]. simpl.
    apply Exists_cons_hd.
    apply Exists_exists in Hzero as (f & Hf & Hfz).
    apply Exists_exists. exists (Qsum (map2 Qmult (map floor_eps (power_row n_fft fr)) f)).
    split.
    + apply (in_map (fun f => Qsum (map2 Qmult (map floor_eps (power_row n_fft fr)) f))).
      exact Hf.
    + now apply Qsum_zero_filter.
Qed.

End SscClaims.


Lemma ssc_zero_filter_witness :
  @ssc toy_libm [1; 2; 3; 4; 5]%Q 16 1 (1 # 2) 3 2 0 None (97 # 100)
  = Raise NonFinite.
Proof.
  apply (@ssc_zero_filter toy_libm [1; 2; 3; 4; 5]%Q 16 1 (1 # 2) 3 2 0 None
           (97 # 100) [[0; 0]; [1; 0]; [0; 0]]%Q).
  - valid_config_by_computation.
  - vm_compute. discriminate.
  - vm_compute. reflexivity.
  - apply Exists_cons_hd. repeat constructor.
Defined.

(** ** Feature blocks *)

Section FeatureBlocks.
Context {libm : Libm} {utils : Utils}.

Lemma mfcc_unfold_derivatives (audio : vec) (fs window_dt dt : Q)
  (n_cepstra n_filters n_fft : Z) (minfreq : Q) (maxfreq : option Q)
  (preemph : Q) (lift : pynum) (energy : bool) (n_derivatives deriv_spread : Z) :
  mfcc audio fs window_dt dt n_cepstra n_filters n_fft minfreq maxfreq
       preemph lift energy n_derivatives deriv_spread
  = (base <- mfcc audio fs window_dt dt n_cepstra n_filters n_fft minfreq maxfreq
                  preemph lift energy 0 deriv_spread ;;
     np_hstack (base :: derivs_from base deriv_spread (Z.to_nat n_derivatives))).
Proof.
  unfold mfcc.
  destruct (fbank audio fs window_dt dt n_filters n_fft minfreq maxfreq preemph)
    as [fe|e]; [|reflexivity].
  cbn [bind].
  destruct (mapM dct_row (map (map m_log) (fst fe))) as [d|e]; [|reflexivity].
  cbn [bind].
  destruct (lifter _ lift) as [l|e]; [|reflexivity].
  cbn [bind].
  destruct (if energy then set_column0 l (map m_log (snd fe)) else Ok l)
    as [f|e]; [|reflexivity].
  reflexivity.
Qed.

(** X20.  The derivative blocks are appended, they change nothing of the
    cepstra: on valid arguments the matrix that [mfcc] returns with
    [n_derivatives] blocks is the [np.hstack] of the matrix it returns
    without derivatives and of its successive derivatives, so every row
    starts with the row of the plain cepstra. *)
Theorem mfcc_derivative_blocks (audio : vec) (fs window_dt dt : Q)
  (n_cepstra n_filters n_fft : Z) (minfreq : Q) (maxfreq : option Q)
  (preemph : Q) (lift : pynum) (energy : bool) (n_derivatives deriv_spread : Z) :
  valid_config audio fs window_dt dt n_filters n_fft minfreq maxfreq ->
  1 <= n_filters ->
  (energy = true -> 1 <= cepstra_width n_cepstra n_filters) ->
  1 <= n_derivatives -> 1 <= deriv_spread ->
  shape_preserving utils ->
  exists base M : mat,
    mfcc audio fs window_dt dt n_cepstra n_filters n_fft minfreq maxfreq
         preemph lift energy 0 deriv_spread = Ok base /\
    mfcc audio fs window_dt dt n_cepstra n_filters n_fft minfreq maxfreq
         preemph lift energy n_derivatives deriv_spread = Ok M /\
    np_hstack (base :: derivs_from base deriv_spread (Z.to_nat n_derivatives))
    = Ok M /\
    length M = length base /\
    forall i, (i < length base)%nat ->
      firstn (length (nth i base [])) (nth i M []) = nth i base [].
Proof.
  intros Hvalid Hnf Hen Hnd Hspread Hsp.
  destruct (mfcc_run audio fs window_dt dt n_cepstra n_filters n_fft minfreq maxfreq
              preemph lift energy 0 deriv_spread)
    as (emph & frames & feat & energy_ & base & n & _ & _ & _ & _ & _ & _ & Hbase
        & _ & _ & Hwbase & _); try assumption; try lia.
  set (w := cepstra_width n_cepstra n_filters) in *.
  replace (w * (1 + Z.max 0 0)) with w in Hwbase by lia.
  assert (Hw0 : 0 <= w)
    by (unfold w, cepstra_width; destruct (Z.leb_spec 0 n_cepstra); lia).
  destruct (derivs_from_shape deriv_spread w (Z.to_nat n_derivatives) base Hsp
              Hspread Hwbase) as [_ Hall].
  destruct (np_hstack_spec (length base) w
              (derivs_from base deriv_spread (Z.to_nat n_derivatives)) base Hw0)
    as (M & HM & HlM & _ & Hrows).
  { constructor; [split; [reflexivity | exact Hwbase] | exact Hall]. }
  exists base, M. split; [exact Hbase|]. split.
  { rewrite mfcc_unfold_derivatives, Hbase. exact HM. }
  split; [exact HM|]. split; [exact HlM|].
  intros i Hi. destruct (Hrows i Hi) as (rest & ->).
  rewrite firstn_app, firstn_all, Nat.sub_diag. simpl. apply app_nil_r.
Qed.

(** X21.  On valid arguments [fbank] returns one row of [n_filters] energies
    per frame, and one frame energy per frame; the number of rows is the
    number of frames of [framesig], not the number of samples.  The frames
    are counted with the frame length and the frame step that [framesig]
    rounds from the binary64 products [window_dt * fs] and [dt * fs]. *)
Theorem fbank_shape (audio : vec) (fs window_dt dt : Q) (n_filters n_fft : Z)
  (minfreq : Q) (maxfreq : option Q) (preemph : Q) :
  valid_config audio fs window_dt dt n_filters n_fft minfreq maxfreq ->
  exists (feat : mat) (energy : vec) (numframes : Z),
    fbank audio fs window_dt dt n_filters n_fft minfreq maxfreq preemph
    = Ok (feat, energy) /\
    framesig_numframes (Z.of_nat (length audio)) (py_round (b64_mul window_dt fs))
                       (py_round (b64_mul dt fs)) = Ok numframes /\
    Z.of_nat (length feat) = numframes /\
    has_width n_filters feat /\
    Z.of_nat (length energy) = numframes.
Proof.
  intros Hvalid.
  destruct (fbank_eq audio fs window_dt dt n_filters n_fft minfreq maxfreq
              preemph Hvalid)
    as (emph & frames & fb & n & _ & _ & _ & Hn & _ & Hlf & _ & _ & Hlfb & _ & _
        & Hrun).
  unfold energies_of in Hrun.
  eexists. eexists. exists n. split; [exact Hrun|]. split; [exact Hn|].
  split; [now rewrite !length_map|]. split; [|now rewrite !length_map].
  apply Forall_forall. intros row Hrow.
  apply in_map_iff in Hrow as (r & <- & Hr).
  apply in_map_iff in Hr as (x & <- & _). now rewrite !length_map.
Qed.

End FeatureBlocks.

Lemma mfcc_derivative_blocks_witness :
  exists base M : mat,
    @mfcc toy_libm toy_utils [1; 2; 3; 4; 5]%Q 4 1 (1 # 2) 2 2 4 0 None
          (97 # 100) (PyInt 22) true 0 2 = Ok base /\
    @mfcc toy_libm toy_utils [1; 2; 3; 4; 5]%Q 4 1 (1 # 2) 2 2 4 0 None
          (97 # 100) (PyInt 22) true 1 2 = Ok M /\
    length M = length base.
Proof.
  destruct (@mfcc_derivative_blocks toy_libm toy_utils
              [1; 2; 3; 4; 5]%Q 4 1 (1 # 2) 2 2 4 0 None (97 # 100) (PyInt 22) true 1 2)
    as (base & M & Hb & HM & _ & Hlen & _).
  - valid_config_by_computation.
  - lia.
  - intros _. vm_compute. discriminate.
  - lia.
  - lia.
  - exact toy_utils_shape_preserving.
  - exists base, M. split; [exact Hb|]. split; [exact HM | exact Hlen].
Defined.

(** The product that [fbank] hands to [framesig] is a binary64 number: for
    windows of 15 ms and steps of 10 ms at 44100 Hz, 0.015 and 0.01 being
    the binary64 numbers next to them, the first product is rounded to 661.5
    and the frames are 662 samples long, where the exact product would round
    to 661; 1103 samples make two frames, not three. *)
Lemma frame_length_of_rounded_product :
  let window_dt := (1080863910568919 # 72057594037927936)%Q in
  let dt := (5764607523034235 # 576460752303423488)%Q in
  (b64_mul window_dt 44100 == 1323 # 2)%Q /\
  py_round (b64_mul window_dt 44100) = 662 /\
  py_round (window_dt * 44100) = 661 /\
  py_round (b64_mul dt 44100) = 441 /\
  framesig_numframes 1103 (py_round (b64_mul window_dt 44100))
                     (py_round (b64_mul dt 44100)) = Ok 2 /\
  framesig_numframes 1103 (py_round (window_dt * 44100))
                     (py_round (dt * 44100)) = Ok 3.
Proof.
  repeat split; reflexivity.
Qed.

Lemma fbank_shape_witness :
  exists (feat : mat) (energy : vec),
    @fbank toy_libm [1; 2; 3; 4; 5]%Q 4 1 (1 # 2) 2 4 0 None (97 # 100)
    = Ok (feat, energy) /\
    Z.of_nat (length feat) = 2 /\ has_width 2 feat.
Proof.
  destruct (@fbank_shape toy_libm [1; 2; 3; 4; 5]%Q 4 1 (1 # 2) 2 4 0 None (97 # 100))
    as (feat & energy & n & Hrun & Hn & Hlf & Hw & _).
  - valid_config_by_computation.
  - exists feat, energy. split; [exact Hrun|]. split; [|exact Hw].
    rewrite Hlf. vm_compute in Hn. injection Hn as Hn'. lia.
Defined.
